(** * fullswing-capture: the OCR extraction pipeline of [ocr_processor.py]

    A shallow embedding of [FullSwingOCR] (backend/fullswing/ocr_processor.py)
    and of the OCR part of the [process_image] view (backend/fullswing/views.py).

    Modelling conventions.
    - A Python [str] is a [list ascii]; a character is read as the code point
      of the same number (the Latin-1 range, U+0000..U+00FF).  The degree sign
      of the third pattern is the single code point 176.
    - The standard-library calls the code relies on ([str.replace],
      [re.findall], [float]) are modelled by executable functions that follow
      their documented behaviour on this character range.
    - A Python [float] obtained from a literal is modelled by the rational
      value the literal denotes, kept in lowest terms.  CPython afterwards
      rounds this value to binary64, a total function of the value which
      cannot raise.  The confidence scores [n / 4.0] and [n / 16] are exact
      in binary64 (division by a power of two), so rationals model them
      exactly.
    - cv2 and pytesseract are external: their functions are the fields of
      the class [Backend]. *)

From Stdlib Require Import Ascii String.
From Stdlib Require Import List Bool Arith Lia ZArith QArith Qreduction Qminmax Qpower.
Import ListNotations.

Close Scope Q_scope.
Open Scope nat_scope.
Open Scope char_scope.
Open Scope list_scope.

(** ** Characters and text *)

Definition text := list ascii.

Definition str (s : string) : text := list_ascii_of_string s.

Definition code (c : ascii) : nat := nat_of_ascii c.

(** [\d] of the [re] module on this range: the ten ASCII digits. *)
Definition is_digit (c : ascii) : bool :=
  match c with
  | "0" | "1" | "2" | "3" | "4" | "5" | "6" | "7" | "8" | "9" => true
  | _ => false
  end.

(** [\s] of the [re] module ([str.isspace]) on this range. *)
Definition is_space (c : ascii) : bool :=
  match code c with
  | 9 | 10 | 11 | 12 | 13 | 28 | 29 | 30 | 31 | 32 | 133 | 160 => true
  | _ => false
  end.

(** Lower-casing used by [re.IGNORECASE]: A-Z and the accented capitals
    192..222 (except the multiplication sign 215) move up by 32. *)
Definition to_lower (c : ascii) : ascii :=
  let n := code c in
  if (((65 <=? n) && (n <=? 90)) || ((192 <=? n) && (n <=? 222) && negb (n =? 215)))%nat
  then ascii_of_nat (n + 32)
  else c.

Definition degree_sign : ascii := ascii_of_nat 176.

(** ** [str.replace] with one-character arguments *)

Fixpoint replace (old new : ascii) (s : text) : text :=
  match s with
  | [] => []
  | c :: s' => (if Ascii.eqb c old then new else c) :: replace old new s'
  end.

(** Line 47: the chain of four replacements. *)
Definition normalize (t : text) : text :=
  replace "I" "1" (replace "l" "1" (replace "o" "0" (replace "O" "0" t))).

(** ** Regular expressions of the shape [(group)suffix]

    Every item of the six patterns is a character class or a literal with a
    quantifier; the matcher is the backtracking matcher of [re]: quantifiers
    are greedy and give characters back when the rest fails. *)

Inductive cclass : Type :=
| Digit                 (* \d *)
| Space                 (* \s *)
| Lit (c : ascii).      (* a literal character *)

Inductive quant : Type :=
| Once                  (* x  *)
| Optional              (* x? *)
| ZeroOrMore            (* x* *)
| OneOrMore.            (* x+ *)

Definition item : Type := (cclass * quant)%type.

Record regex : Type := mkRegex {
  group1 : list item;   (* the parenthesised group, at the start *)
  suffix : list item    (* what follows the group *)
}.

Definition accepts (ignorecase : bool) (cl : cclass) (c : ascii) : bool :=
  match cl with
  | Digit => is_digit c
  | Space => is_space c
  | Lit l => if ignorecase then Ascii.eqb (to_lower c) (to_lower l) else Ascii.eqb c l
  end.

(** Greedy repetition of a class, then [next]; one character is given back
    at a time while [next] fails. *)
Fixpoint greedy {A : Type} (p : ascii -> bool) (next : text -> option A) (s : text)
  : option A :=
  match s with
  | c :: s' =>
      if p c then
        match greedy p next s' with
        | Some r => Some r
        | None => next s
        end
      else next s
  | [] => next s
  end.

Fixpoint match_items {A : Type} (ic : bool) (its : list item)
  (k : text -> option A) (s : text) : option A :=
  match its with
  | [] => k s
  | (cl, q) :: its' =>
      let next := match_items ic its' k in
      match q with
      | Once =>
          match s with
          | c :: s' => if accepts ic cl c then next s' else None
          | [] => None
          end
      | Optional =>
          match s with
          | c :: s' =>
              if accepts ic cl c then
                match next s' with
                | Some r => Some r
                | None => next s
                end
              else next s
          | [] => next s
          end
      | ZeroOrMore => greedy (accepts ic cl) next s
      | OneOrMore =>
          match s with
          | c :: s' => if accepts ic cl c then greedy (accepts ic cl) next s' else None
          | [] => None
          end
      end
  end.

(** A match anchored at the start of [s]: the text captured by the group and
    the length of the whole match. *)
Definition match_at (ic : bool) (re : regex) (s : text) : option (text * nat) :=
  match_items ic (group1 re)
    (fun s1 =>
       match_items ic (suffix re)
         (fun s2 => Some (firstn (length s - length s1) s, length s - length s2))
         s1)
    s.

(** [re.findall] for a pattern with one group: scan from the left, take the
    leftmost match, record its group, resume where the match ended (one
    character further after an empty match).  [skip] counts the characters
    still covered by the previous match. *)
Fixpoint findall_from (ic : bool) (re : regex) (skip : nat) (s : text) : list text :=
  match skip with
  | S n =>
      match s with
      | [] => []
      | _ :: s' => findall_from ic re n s'
      end
  | O =>
      match match_at ic re s with
      | Some (cap, len) =>
          cap :: match s with
                 | [] => []
                 | _ :: s' => findall_from ic re (pred len) s'
                 end
      | None =>
          match s with
          | [] => []
          | _ :: s' => findall_from ic re 0 s'
          end
      end
  end.

Definition findall (re : regex) (s : text) (ignorecase : bool) : list text :=
  findall_from ignorecase re 0 s.

(** Lines 50-57: the six patterns. *)
Definition number_group : list item :=
  [(Digit, OneOrMore); (Lit ".", Optional); (Digit, ZeroOrMore)].

Definition unit_pattern (unit : text) : regex :=
  mkRegex number_group ((Space, ZeroOrMore) :: map (fun c => (Lit c, Once)) unit).

Definition pat_mph : regex := unit_pattern (str "mph").
Definition pat_ft : regex := unit_pattern (str "ft").
Definition pat_deg : regex := unit_pattern [degree_sign].
Definition pat_rpm : regex := unit_pattern (str "rpm").
Definition pat_per_s : regex := unit_pattern (str "/s").
Definition pat_any : regex := mkRegex ((Lit "-", Optional) :: number_group) [].

Definition unit_patterns : list regex :=
  [pat_mph; pat_ft; pat_deg; pat_rpm; pat_per_s].

Definition patterns : list regex := unit_patterns ++ [pat_any].

(** ** [float(str)]

    The grammar accepted by CPython's [float]: underscores only between
    digits, surrounding whitespace stripped, an optional sign, then [inf],
    [infinity] or [nan] in any case, or a decimal literal with an optional
    exponent.  [None] stands for [ValueError]. *)

Inductive pyfloat : Type :=
| Finite (q : Q)              (* the value denoted, in lowest terms *)
| Infinity (negative : bool)
| NaN.

(** The whitespace [float] strips on this range. *)
Definition is_float_space (c : ascii) : bool :=
  match code c with
  | 9 | 10 | 11 | 12 | 13 | 32 | 133 | 160 => true
  | _ => false
  end.

Fixpoint lstrip (s : text) : text :=
  match s with
  | c :: s' => if is_float_space c then lstrip s' else s
  | [] => []
  end.

Definition strip (s : text) : text := rev (lstrip (rev (lstrip s))).

Fixpoint drop_underscores (prev : ascii) (s : text) : option text :=
  match s with
  | [] => if Ascii.eqb prev "_" then None else Some []
  | c :: s' =>
      if Ascii.eqb c "_" then
        if is_digit prev then drop_underscores c s' else None
      else if Ascii.eqb prev "_" && negb (is_digit c) then None
      else option_map (cons c) (drop_underscores c s')
  end.

Fixpoint span_digits (s : text) : text * text :=
  match s with
  | c :: s' =>
      if is_digit c then let (d, r) := span_digits s' in (c :: d, r) else ([], s)
  | [] => ([], [])
  end.

Definition digit_value (c : ascii) : Z := Z.of_nat (code c - 48).

Fixpoint digits_value (acc : Z) (ds : text) : Z :=
  match ds with
  | [] => acc
  | d :: ds' => digits_value (10 * acc + digit_value d) ds'
  end.

Definition split_sign (s : text) : bool * text :=
  match s with
  | "-" :: r => (true, r)
  | "+" :: r => (false, r)
  | _ => (false, s)
  end.

Definition parse_exponent (r : text) : option Z :=
  match r with
  | [] => Some 0%Z
  | c :: r' =>
      if Ascii.eqb c "e" || Ascii.eqb c "E" then
        let (neg, ds) := split_sign r' in
        match span_digits ds with
        | (d :: ds', []) =>
            let v := digits_value 0 (d :: ds') in
            Some (if neg then (- v)%Z else v)
        | _ => None
        end
      else None
  end.

Definition parse_decimal (s : text) : option Q :=
  let (ip, r1) := span_digits s in
  let (fp, r2) := match r1 with
                  | "." :: r => span_digits r
                  | _ => ([], r1)
                  end in
  match ip ++ fp with
  | [] => None
  | _ :: _ =>
      match parse_exponent r2 with
      | Some e =>
          Some (Qred (inject_Z (digits_value 0 (ip ++ fp))
                      * Qpower (10 # 1) (e - Z.of_nat (length fp))))
      | None => None
      end
  end.

Fixpoint text_eqb (a b : text) : bool :=
  match a, b with
  | [], [] => true
  | x :: a', y :: b' => Ascii.eqb x y && text_eqb a' b'
  | _, _ => false
  end.

Definition py_float (s : text) : option pyfloat :=
  match drop_underscores zero s with
  | None => None
  | Some s0 =>
      let (neg, s2) := split_sign (strip s0) in
      let low := map to_lower s2 in
      if text_eqb low (str "inf") || text_eqb low (str "infinity") then
        Some (Infinity neg)
      else if text_eqb low (str "nan") then Some NaN
      else
        match parse_decimal s2 with
        | Some q => Some (Finite (if neg then Qopp q else q))
        | None => None
        end
  end.

(** ** The class [FullSwingOCR]

    The object has one attribute, [config].  Methods take [self] and hand
    it back with their result, so that what a call does to the object is
    part of its value. *)

Record FullSwingOCR : Type := mkFullSwingOCR { config : text }.

(** Lines 9-11. *)
Definition __init__ : FullSwingOCR :=
  mkFullSwingOCR
    (str "--oem 3 --psm 6 -c tessedit_char_whitelist=0123456789.-+mph"
       ++ [degree_sign] ++ str "ft/s").

(** Lines 62-65: [numbers.append(float(match))] under [try], [continue] on
    [ValueError]. *)
Definition try_append (numbers : list pyfloat) (m : text) : list pyfloat :=
  match py_float m with
  | Some v => numbers ++ [v]
  | None => numbers
  end.

(** Lines 42-67. *)
Definition extract_numbers_from_text (self : FullSwingOCR) (t : text)
  : list pyfloat * FullSwingOCR :=
  let numbers := [] in
  let t := normalize t in
  let numbers :=
    fold_left
      (fun numbers pattern => fold_left try_append (findall pattern t true) numbers)
      patterns numbers in
  (numbers, self).

(** ** Dictionaries

    A Python [dict] keeps its keys in insertion order and holds each key
    once: an association list, where assigning to a key already present
    replaces its value in place. *)

Definition dict : Type := list (string * option pyfloat).

Fixpoint dict_set (d : dict) (k : string) (v : option pyfloat) : dict :=
  match d with
  | [] => [(k, v)]
  | (k', v') :: d' =>
      if String.eqb k' k then (k', v) :: d' else (k', v') :: dict_set d' k v
  end.

Fixpoint dict_get (d : dict) (k : string) : option (option pyfloat) :=
  match d with
  | [] => None
  | (k', v') :: d' => if String.eqb k' k then Some v' else dict_get d' k
  end.

Definition keys (d : dict) : list string := map fst d.

(** A dict display [{k1: v1, ..., kn: vn}] stores its items left to right. *)
Definition dict_display (items : list (string * option pyfloat)) : dict :=
  fold_left (fun d kv => dict_set d (fst kv) (snd kv)) items [].

(** The number of keys holding a value other than [None]. *)
Definition populated (d : dict) : nat :=
  length (filter (fun kv => match snd kv with Some _ => true | None => false end) d).

(** ** Positional mapping and confidence *)

(** [numbers[i] if len(numbers) > i else None]; under the guard the index
    is in range and [nth_error] is the element. *)
Definition item_or_None (numbers : list pyfloat) (i : nat) : option pyfloat :=
  if (i <? length numbers)%nat then nth_error numbers i else None.

(** Python's [min(a, b)]: [b] when [b < a], else [a]. *)
Definition py_min (a b : Q) : Q := if Qle_bool a b then a else b.

Definition float_of_len (numbers : list pyfloat) : Q :=
  inject_Z (Z.of_nat (length numbers)).

(** Lines 78-83 of [process_oled_display]. *)
Definition oled_result (numbers : list pyfloat) : dict :=
  dict_display
    [ ("ball_speed", item_or_None numbers 0);
      ("club_head_speed", item_or_None numbers 1);
      ("carry_distance", item_or_None numbers 2);
      ("total_distance", item_or_None numbers 3) ]%string.

(** Line 85: [len(numbers) / 4.0]. *)
Definition oled_confidence (numbers : list pyfloat) : Q :=
  (float_of_len numbers / 4)%Q.

(** Lines 96-101 of [process_ipad_display]. *)
Definition ipad_fields : list string :=
  [ "ball_speed"; "club_head_speed"; "smash_factor"; "carry_distance";
    "total_distance"; "launch_angle"; "spin_rate"; "side_spin";
    "angle_of_attack"; "club_path"; "face_angle"; "dynamic_loft";
    "impact_height"; "impact_toe"; "ball_height"; "descent_angle" ]%string.

(** [enumerate(fields)]. *)
Definition enumerate {A : Type} (l : list A) : list (nat * A) :=
  combine (seq 0 (length l)) l.

(** Line 105, the body of the loop. *)
Definition set_field (numbers : list pyfloat) (result : dict) (p : nat * string)
  : dict :=
  let '(i, field) := p in dict_set result field (item_or_None numbers i).

(** Lines 103-105: the loop over [enumerate(fields)]. *)
Definition fill_fields (fields : list string) (numbers : list pyfloat) : dict :=
  fold_left (set_field numbers) (enumerate fields) [].

Definition ipad_result (numbers : list pyfloat) : dict :=
  fill_fields ipad_fields numbers.

(** Line 107: [min(1.0, len(numbers) / len(fields))]. *)
Definition ipad_confidence (numbers : list pyfloat) : Q :=
  py_min 1 (float_of_len numbers / inject_Z (Z.of_nat (length ipad_fields)))%Q.

(** The two display layouts of the specification, for the statements: the
    OLED field list is the key list of the dict display of lines 78-83. *)
Inductive layout : Type := OLED | TABLET.

Definition oled_fields : list string :=
  [ "ball_speed"; "club_head_speed"; "carry_distance"; "total_distance" ]%string.

Definition layout_fields (L : layout) : list string :=
  match L with OLED => oled_fields | TABLET => ipad_fields end.

Definition layout_result (L : layout) : list pyfloat -> dict :=
  match L with OLED => oled_result | TABLET => ipad_result end.

Definition layout_confidence (L : layout) : list pyfloat -> Q :=
  match L with OLED => oled_confidence | TABLET => ipad_confidence end.

(** ** Exceptions and the external stages *)

Record exception : Type := mkException {
  exc_class : string;      (* the name of the exception class *)
  exc_message : text       (* what [str(e)] gives *)
}.

Inductive outcome (A : Type) : Type :=
| Returns (a : A)
| Raises (e : exception).

Arguments Returns {A} a.
Arguments Raises {A} e.

(** cv2 and pytesseract, as an interface.  [imread] gives [None] for a file
    it cannot read or decode; [cvtColor] raises [cv2.error] on such an empty
    source, with the message [empty_source_message]. *)
Class Backend : Type := {
  ndarray : Type;
  imread : text -> option ndarray;
  bgr2gray : ndarray -> ndarray;
  empty_source_message : text;
  bilateralFilter : ndarray -> nat -> nat -> nat -> ndarray;
  adaptiveThreshold : ndarray -> nat -> nat -> nat -> ndarray;
  morph_close : ndarray -> nat * nat -> ndarray;
  shape : ndarray -> nat * nat;
  (* [int(width * (500 / height))], a floating-point computation *)
  scaled_width : nat -> nat -> nat;
  resize_cubic : ndarray -> nat * nat -> ndarray;
  image_to_string : ndarray -> text -> outcome text
}.

Record Shot : Type := mkShot {
  image_path : text;
  shot_fields : dict;
  processed : bool;
  processing_errors : text;
  confidence_score : option Q
}.

Inductive Response : Type :=
| Response_data (data : dict) (confidence : Q) (raw_text : text)
| Response_error (error : text) (status : nat).

Definition reading : Type := (dict * text * Q)%type.

Section Pipeline.

Context {B : Backend}.

Definition cv2_error : exception := mkException "cv2.error" empty_source_message.

Definition cvtColor (img : option ndarray) : outcome ndarray :=
  match img with
  | Some a => Returns (bgr2gray a)
  | None => Raises cv2_error
  end.

(** Lines 13-40. *)
Definition preprocess_image (self : FullSwingOCR) (path : text)
  : outcome ndarray * FullSwingOCR :=
  let img := imread path in
  match cvtColor img with
  | Raises e => (Raises e, self)
  | Returns gray =>
      let filtered := bilateralFilter gray 9 75 75 in
      let thresh := adaptiveThreshold filtered 255 11 2 in
      let kernel := (2, 2) in
      let cleaned := morph_close thresh kernel in
      let '(height, width) := shape cleaned in
      let cleaned :=
        if (height <? 500)%nat
        then resize_cubic cleaned (scaled_width width height, 500)
        else cleaned in
      (Returns cleaned, self)
  end.

(** Lines 69-85. *)
Definition process_oled_display (self : FullSwingOCR) (path : text)
  : outcome reading * FullSwingOCR :=
  match preprocess_image self path with
  | (Raises e, self) => (Raises e, self)
  | (Returns processed_img, self) =>
      match image_to_string processed_img (config self) with
      | Raises e => (Raises e, self)
      | Returns t =>
          let '(numbers, self) := extract_numbers_from_text self t in
          let result := oled_result numbers in
          (Returns (result, t, oled_confidence numbers), self)
      end
  end.

(** Lines 87-107. *)
Definition process_ipad_display (self : FullSwingOCR) (path : text)
  : outcome reading * FullSwingOCR :=
  match preprocess_image self path with
  | (Raises e, self) => (Raises e, self)
  | (Returns processed_img, self) =>
      match image_to_string processed_img (config self) with
      | Raises e => (Raises e, self)
      | Returns t =>
          let '(numbers, self) := extract_numbers_from_text self t in
          let result := ipad_result numbers in
          (Returns (result, t, ipad_confidence numbers), self)
      end
  end.

(** *** The view [process_image], lines 36-68

    The request handling and the ORM calls before line 36 are outside
    the model: the stored shot and the display type are given. *)

(** Lines 46-48, for the data the view passes: every key of both layouts
    is an attribute of [Shot], so [hasattr(shot, field)] is true of each
    and is left out here; [update_shot_hasattr] is the loop with the test
    kept, for any data. *)
Definition update_shot (fields : dict) (data : dict) : dict :=
  fold_left
    (fun fs '(field, value) =>
       match value with
       | Some _ => dict_set fs field value
       | None => fs
       end)
    data fields.

Definition process_image (display_type : string) (shot : Shot) : Response * Shot :=
  let ocr_processor := __init__ in
  let run := if String.eqb display_type "oled"
             then process_oled_display ocr_processor (image_path shot)
             else process_ipad_display ocr_processor (image_path shot) in
  match fst run with
  | Returns (data, raw_text, confidence) =>
      let shot := mkShot (image_path shot) (update_shot (shot_fields shot) data)
                    true (processing_errors shot) (Some confidence) in
      (Response_data data confidence raw_text, shot)
  | Raises e =>
      let shot := mkShot (image_path shot) (shot_fields shot) (processed shot)
                    (exc_message e) (confidence_score shot) in
      (Response_error (str "Processing failed: " ++ exc_message e) 500, shot)
  end.

End Pipeline.

(** ** Notions used in the statements *)

(** What the four replacements of line 47 do to one character. *)
Definition normalize_char (c : ascii) : ascii :=
  match c with
  | "O" | "o" => "0"
  | "l" | "I" => "1"
  | _ => c
  end.

(** The item a field receives by position. *)
Definition positional (numbers : list pyfloat) (p : nat * string)
  : string * option pyfloat :=
  (snd p, nth_error numbers (fst p)).

(** The coverage the specification asks for: populated fields over expected
    fields, capped at 1. *)
Definition coverage (L : layout) (numbers : list pyfloat) : Q :=
  Qmin 1 (inject_Z (Z.of_nat (populated (layout_result L numbers)))
          / inject_Z (Z.of_nat (length (layout_fields L)))).

Definition five_numbers : list pyfloat :=
  [Finite 1; Finite 2; Finite 3; Finite 4; Finite 5].

(** [spans ic its w]: the items [its] can consume exactly [w]. *)
Inductive spans (ic : bool) : list item -> text -> Prop :=
| spans_nil : spans ic [] []
| spans_once cl its c w :
    accepts ic cl c = true -> spans ic its w ->
    spans ic ((cl, Once) :: its) (c :: w)
| spans_skip cl its w :
    spans ic its w -> spans ic ((cl, Optional) :: its) w
| spans_take cl its c w :
    accepts ic cl c = true -> spans ic its w ->
    spans ic ((cl, Optional) :: its) (c :: w)
| spans_star cl its u w :
    Forall (fun c => accepts ic cl c = true) u -> spans ic its w ->
    spans ic ((cl, ZeroOrMore) :: its) (u ++ w)
| spans_plus cl its c u w :
    accepts ic cl c = true ->
    Forall (fun c => accepts ic cl c = true) u -> spans ic its w ->
    spans ic ((cl, OneOrMore) :: its) (c :: u ++ w).

Definition all_digits (u : text) : Prop := Forall (fun c => is_digit c = true) u.

(** The value of the decimal literal with integer part [ip] and fractional
    part [fp]. *)
Definition decimal (ip fp : text) : Q :=
  Qred (inject_Z (digits_value 0 (ip ++ fp))
        * Qpower (10 # 1) (0 - Z.of_nat (length fp))).

Inductive number_text : text -> Prop :=
| number_int u : u <> [] -> all_digits u -> number_text u
| number_point a b :
    a <> [] -> all_digits a -> all_digits b -> number_text (a ++ "." :: b).

Definition number_char (c : ascii) : bool :=
  is_digit c || Ascii.eqb c "." || Ascii.eqb c "-".

Definition stops_digits (rest : text) : Prop :=
  match rest with
  | [] => True
  | c :: _ => is_digit c = false
  end.

(** All the matches, pattern after pattern in the order of the list. *)
Definition all_matches (t : text) : list text :=
  flat_map (fun p => findall p t true) patterns.

(** The floats of the matches that convert, in order. *)
Definition converted (ms : list text) : list pyfloat :=
  flat_map (fun m => match py_float m with Some v => [v] | None => [] end) ms.

Definition Q_eq_dec (a b : Q) : {a = b} + {a <> b}.
Proof. decide equality; [apply Pos.eq_dec | apply Z.eq_dec]. Defined.

Definition pyfloat_eq_dec (a b : pyfloat) : {a = b} + {a <> b}.
Proof. decide equality; [apply Q_eq_dec | apply bool_dec]. Defined.

(** A backend whose [imread] reads nothing and whose recognizer returns the
    empty text. *)
Definition unreadable_backend : Backend := {|
  ndarray := unit;
  imread := fun _ => None;
  bgr2gray := fun a => a;
  empty_source_message := str "(-215:Assertion failed) !_src.empty() in function 'cvtColor'";
  bilateralFilter := fun a _ _ _ => a;
  adaptiveThreshold := fun a _ _ _ => a;
  morph_close := fun a _ => a;
  shape := fun _ => (0, 0);
  scaled_width := fun _ _ => 0;
  resize_cubic := fun a _ => a;
  image_to_string := fun _ _ => Returns []
|}.

Definition new_shot (path : text) : Shot := mkShot path [] false [] None.

(** The four characters line 47 replaces. *)
Definition confusable (c : ascii) : bool :=
  match c with
  | "O" | "o" | "l" | "I" => true
  | _ => false
  end.

(** The unit markers of lines 51-55, in the order of the list. *)
Definition unit_markers : list text :=
  [str "mph"; str "ft"; [degree_sign]; str "rpm"; str "/s"].

(** A value that is not negative and not nan: a literal denoting a number
    not below zero, or plus infinity.  The float of a literal is its value
    rounded to binary64, plus infinity when the value overflows; rounding
    keeps the sign, so the float of such a value is 0.0, positive or inf. *)
Definition not_negative (v : pyfloat) : Prop :=
  match v with
  | Finite q => (0 <= q)%Q
  | Infinity negative => negative = false
  | NaN => False
  end.

(** A text that cannot extend a number: empty, or starting with a
    character that is neither a digit nor a point. *)
Definition stops_number (rest : text) : Prop :=
  match rest with
  | [] => True
  | c :: _ => is_digit c = false /\ accepts true (Lit ".") c = false
  end.

(** The letters that tell the unit markers apart. *)
Definition marker_letter (l : ascii) : bool :=
  match l with
  | "m" | "h" | "f" | "r" | "/" => true
  | _ => Ascii.eqb l degree_sign
  end.

(** models.py, lines 18-38: the float columns of [Shot]. *)
Definition Shot_float_columns : list string :=
  [ "ball_speed"; "club_head_speed"; "carry_distance"; "total_distance";
    "smash_factor"; "launch_angle"; "spin_rate"; "side_spin";
    "angle_of_attack"; "club_path"; "face_angle"; "dynamic_loft";
    "impact_height"; "impact_toe"; "ball_height"; "descent_angle";
    "apex_height"; "hang_time"; "offline" ]%string.

(** Lines 46-48 of views.py with the [hasattr(shot, field)] test kept,
    [hasattr] being given. *)
Definition update_shot_hasattr (hasattr : string -> bool) (fields data : dict) : dict :=
  fold_left
    (fun fs '(field, value) =>
       match value with
       | Some _ => if hasattr field then dict_set fs field value else fs
       | None => fs
       end)
    data fields.

(** Lines 40-43 of views.py: ['oled'] selects the OLED path, any other
    display type the tablet path. *)
Definition display_layout (display_type : string) : layout :=
  if String.eqb display_type "oled" then OLED else TABLET.

Definition process_display {B : Backend} (L : layout)
  : FullSwingOCR -> text -> outcome reading * FullSwingOCR :=
  match L with
  | OLED => process_oled_display
  | TABLET => process_ipad_display
  end.

(** A backend whose arrays are their shape (height, width): [imread] gives
    a 3 by 4 image, [resize] gives the size asked for, and the
    recognizer reads a fixed text. *)
Definition sized_backend : Backend := {|
  ndarray := (nat * nat)%type;
  imread := fun _ => Some (3, 4);
  bgr2gray := fun a => a;
  empty_source_message := [];
  bilateralFilter := fun a _ _ _ => a;
  adaptiveThreshold := fun a _ _ _ => a;
  morph_close := fun a _ => a;
  shape := fun a => a;
  scaled_width := fun w h => w * 500 / h;
  resize_cubic := fun _ d => (snd d, fst d);
  image_to_string := fun _ _ => Returns (str "85.3 mph 112.mph")
|}.

(** A backend that decodes the image and whose recognizer fails. *)
Definition failing_ocr_backend : Backend := {|
  ndarray := unit;
  imread := fun _ => Some tt;
  bgr2gray := fun a => a;
  empty_source_message := [];
  bilateralFilter := fun a _ _ _ => a;
  adaptiveThreshold := fun a _ _ _ => a;
  morph_close := fun a _ => a;
  shape := fun _ => (600, 800);
  scaled_width := fun w _ => w;
  resize_cubic := fun a _ => a;
  image_to_string :=
    fun _ _ => Raises (mkException "TesseractNotFoundError" (str "tesseract is not installed"))
|}.

(** Line 11: the characters of [tessedit_char_whitelist]. *)
Definition whitelist : text :=
  str "0123456789.-+mph" ++ [degree_sign] ++ str "ft/s".

(** A character the recognizer can give under that whitelist: one of the
    list, or white space. *)
Definition whitelisted (c : ascii) : bool :=
  existsb (Ascii.eqb c) whitelist || is_space c.

(** What a capture looks like: a number, or a minus sign and a number. *)
Definition signed_number_text (m : text) : Prop :=
  number_text m \/ exists m', m = "-" :: m' /\ number_text m'.

(** Lines 19-31 of [preprocess_image]: the decoded image turned gray,
    filtered, thresholded and closed, before any resizing. *)
Definition cleaned {B : Backend} (img : ndarray) : ndarray :=
  morph_close (adaptiveThreshold (bilateralFilter (bgr2gray img) 9 75 75) 255 11 2)
    (2, 2).

(** A character that can belong to a number once the text is normalized:
    a digit, one of the letters line 47 turns into a digit, or a point. *)
Definition number_part (c : ascii) : bool :=
  is_digit (normalize_char c) || Ascii.eqb c ".".

(** A token is delimited in a text [pre ++ token ++ post] when the
    character before it and the character after it, if any, are no
    [number_part]. *)
Definition ends_at_boundary (pre : text) : Prop :=
  match rev pre with
  | [] => True
  | x :: _ => number_part x = false
  end.

Definition starts_at_boundary (post : text) : Prop :=
  match post with
  | [] => True
  | y :: _ => number_part y = false
  end.

Definition preceded_by_minus (pre : text) : bool :=
  match rev pre with
  | x :: _ => Ascii.eqb x "-"
  | [] => false
  end.

Definition digit_or_point (c : ascii) : bool := is_digit c || Ascii.eqb c ".".

(** * Properties *)

Ltac each_ascii c := destruct c as [[] [] [] [] [] [] [] []].

(** ** Character normalization *)

Lemma replace_as_map (old new : ascii) (s : text) :
  replace old new s = map (fun c => if Ascii.eqb c old then new else c) s.
Proof. induction s as [|c s IH]; simpl; [reflexivity | now rewrite IH]. Qed.

Lemma normalize_as_map (t : text) : normalize t = map normalize_char t.
Proof.
  unfold normalize. rewrite !replace_as_map, !map_map.
  apply map_ext. intros c. each_ascii c; reflexivity.
Qed.

Lemma normalize_char_idempotent (c : ascii) :
  normalize_char (normalize_char c) = normalize_char c.
Proof. each_ascii c; reflexivity. Qed.

(** C8. The normalization of line 47 (O and o to 0, l and I to 1) is
    idempotent: normalizing a normalized text changes nothing. *)
Theorem normalize_idempotent (t : text) :
  normalize (normalize t) = normalize t.
Proof.
  rewrite !normalize_as_map, map_map.
  apply map_ext. exact normalize_char_idempotent.
Qed.

(** ** Dictionaries *)

Lemma keys_dict_set_new (d : dict) (k : string) (v : option pyfloat) :
  ~ In k (keys d) -> keys (dict_set d k v) = keys d ++ [k].
Proof.
  induction d as [|[k' v'] d IH]; simpl; intros Hk; [reflexivity|].
  destruct (String.eqb_spec k' k) as [->|Hne].
  - exfalso. apply Hk. now left.
  - simpl. f_equal. apply IH. intros Hin. apply Hk. now right.
Qed.

Lemma dict_get_set_same (d : dict) (k : string) (v : option pyfloat) :
  dict_get (dict_set d k v) k = Some v.
Proof.
  induction d as [|[k' v'] d IH]; simpl.
  - now rewrite String.eqb_refl.
  - destruct (String.eqb_spec k' k) as [->|Hne]; simpl.
    + now rewrite String.eqb_refl.
    + destruct (String.eqb_spec k' k); [contradiction | exact IH].
Qed.

Lemma dict_get_set_other (d : dict) (k k' : string) (v : option pyfloat) :
  k <> k' -> dict_get (dict_set d k v) k' = dict_get d k'.
Proof.
  intros Hne. induction d as [|[k0 v0] d IH]; simpl.
  - destruct (String.eqb_spec k k'); [contradiction | reflexivity].
  - destruct (String.eqb_spec k0 k) as [->|Hk0]; simpl.
    + destruct (String.eqb_spec k k'); [contradiction | reflexivity].
    + destruct (String.eqb_spec k0 k'); [reflexivity | exact IH].
Qed.

Lemma item_or_None_nth_error (numbers : list pyfloat) (i : nat) :
  item_or_None numbers i = nth_error numbers i.
Proof.
  unfold item_or_None. destruct (Nat.ltb_spec i (length numbers)) as [Hlt|Hge].
  - reflexivity.
  - symmetry. now apply nth_error_None.
Qed.

(** ** The loop of lines 103-105, over any list of distinct field names *)

Section FillFields.

Variable numbers : list pyfloat.

Lemma fill_loop_keys (fields : list string) :
  forall (a : nat) (acc : dict),
    NoDup fields ->
    (forall f, In f fields -> ~ In f (keys acc)) ->
    keys (fold_left (set_field numbers) (combine (seq a (length fields)) fields) acc)
    = keys acc ++ fields.
Proof.
  induction fields as [|f fields IH]; intros a acc Hnd Hfresh; simpl.
  - now rewrite app_nil_r.
  - inversion Hnd as [|? ? Hf Hnd']; subst.
    rewrite IH; trivial.
    + rewrite keys_dict_set_new by (apply Hfresh; now left).
      now rewrite <- app_assoc.
    + intros g Hg. rewrite keys_dict_set_new by (apply Hfresh; now left).
      rewrite in_app_iff. intros [Hin|[->|[]]].
      * revert Hin. apply Hfresh. now right.
      * contradiction.
Qed.

Lemma fill_loop_get (fields : list string) :
  forall (a : nat) (acc : dict) (i : nat) (f : string),
    NoDup fields ->
    nth_error fields i = Some f ->
    dict_get (fold_left (set_field numbers) (combine (seq a (length fields)) fields) acc) f
    = Some (item_or_None numbers (a + i)).
Proof.
  induction fields as [|g fields IH]; intros a acc i f Hnd Hi.
  - destruct i; discriminate.
  - inversion Hnd as [|? ? Hg Hnd']; subst. simpl.
    destruct i as [|i]; simpl in Hi.
    + injection Hi as ->. rewrite Nat.add_0_r.
      clear IH Hnd. revert a acc.
      assert (Hkeep : forall fs b acc0,
                 ~ In f fs ->
                 dict_get (fold_left (set_field numbers) (combine (seq b (length fs)) fs) acc0) f
                 = dict_get acc0 f).
      { induction fs as [|h fs IHfs]; intros b acc0 Hnin; simpl; [reflexivity|].
        rewrite IHfs by (intros H; apply Hnin; now right).
        apply dict_get_set_other. intros ->. apply Hnin. now left. }
      intros a acc. rewrite Hkeep by exact Hg. apply dict_get_set_same.
    + rewrite (IH (S a) _ i f Hnd' Hi). now rewrite Nat.add_succ_r.
Qed.

End FillFields.

Lemma fill_fields_keys (fields : list string) (numbers : list pyfloat) :
  NoDup fields -> keys (fill_fields fields numbers) = fields.
Proof.
  intros Hnd. unfold fill_fields, enumerate.
  apply (fill_loop_keys numbers fields 0 [] Hnd). intros f _ [].
Qed.

Lemma fill_fields_get (fields : list string) (numbers : list pyfloat)
      (i : nat) (f : string) :
  NoDup fields -> nth_error fields i = Some f ->
  dict_get (fill_fields fields numbers) f = Some (nth_error numbers i).
Proof.
  intros Hnd Hi. unfold fill_fields, enumerate.
  rewrite (fill_loop_get numbers fields 0 [] i f Hnd Hi).
  now rewrite item_or_None_nth_error.
Qed.

Lemma NoDup_ipad_fields : NoDup ipad_fields.
Proof.
  apply (NoDup_count_occ' string_dec). intros f Hin.
  repeat (destruct Hin as [<-|Hin]; [reflexivity|]). destruct Hin.
Qed.

Lemma NoDup_oled_fields : NoDup oled_fields.
Proof.
  apply (NoDup_count_occ' string_dec). intros f Hin.
  repeat (destruct Hin as [<-|Hin]; [reflexivity|]). destruct Hin.
Qed.

Lemma oled_result_as_fill (numbers : list pyfloat) :
  oled_result numbers = fill_fields oled_fields numbers.
Proof. reflexivity. Qed.

Lemma layout_result_keys (L : layout) (numbers : list pyfloat) :
  keys (layout_result L numbers) = layout_fields L.
Proof.
  destruct L; unfold layout_result, layout_fields.
  - rewrite oled_result_as_fill. apply fill_fields_keys, NoDup_oled_fields.
  - apply fill_fields_keys, NoDup_ipad_fields.
Qed.

Lemma layout_result_get (L : layout) (numbers : list pyfloat) (i : nat) (field : string) :
  nth_error (layout_fields L) i = Some field ->
  dict_get (layout_result L numbers) field = Some (nth_error numbers i).
Proof.
  destruct L; unfold layout_result, layout_fields.
  - rewrite oled_result_as_fill. apply fill_fields_get, NoDup_oled_fields.
  - apply fill_fields_get, NoDup_ipad_fields.
Qed.

(** C2. For every numeric sequence and both layouts, the keys of the
    mapping are exactly the field names of the layout, each once and in the
    declared order, and the i-th field holds the i-th element of the
    sequence when there is one and [None] otherwise (which is what
    [nth_error numbers i] is). *)
Theorem mapping_is_positional (L : layout) (numbers : list pyfloat) :
  keys (layout_result L numbers) = layout_fields L /\
  forall (i : nat) (field : string),
    nth_error (layout_fields L) i = Some field ->
    dict_get (layout_result L numbers) field = Some (nth_error numbers i).
Proof.
  split; [apply layout_result_keys | intros i field; apply layout_result_get].
Qed.

Lemma mapping_is_positional_witness :
  nth_error (layout_fields TABLET) 2 = Some "smash_factor"%string /\
  dict_get (layout_result TABLET [Finite 1; Finite 2]) "smash_factor" = Some None /\
  dict_get (layout_result OLED [Finite 1; Finite 2]) "club_head_speed"
  = Some (Some (Finite 2)).
Proof.
  split; [reflexivity|]. split.
  - exact (proj2 (mapping_is_positional TABLET [Finite 1; Finite 2]) 2
             "smash_factor"%string eq_refl).
  - exact (proj2 (mapping_is_positional OLED [Finite 1; Finite 2]) 1
             "club_head_speed"%string eq_refl).
Defined.

(** ** Coverage and confidence *)

Lemma dict_set_new (d : dict) (k : string) (v : option pyfloat) :
  ~ In k (keys d) -> dict_set d k v = d ++ [(k, v)].
Proof.
  induction d as [|[k' v'] d IH]; simpl; intros Hk; [reflexivity|].
  destruct (String.eqb_spec k' k) as [->|Hne].
  - exfalso. apply Hk. now left.
  - f_equal. apply IH. intros Hin. apply Hk. now right.
Qed.

Lemma fill_loop_as_map (numbers : list pyfloat) (fields : list string) :
  forall (a : nat) (acc : dict),
    NoDup fields ->
    (forall f, In f fields -> ~ In f (keys acc)) ->
    fold_left (set_field numbers) (combine (seq a (length fields)) fields) acc
    = acc ++ map (positional numbers) (combine (seq a (length fields)) fields).
Proof.
  induction fields as [|f fields IH]; intros a acc Hnd Hfresh; simpl.
  - now rewrite app_nil_r.
  - inversion Hnd as [|? ? Hf Hnd']; subst.
    rewrite dict_set_new by (apply Hfresh; now left).
    rewrite IH; trivial.
    + rewrite <- app_assoc. simpl. unfold positional at 2. simpl.
      now rewrite item_or_None_nth_error.
    + intros g Hg. unfold keys. rewrite map_app, in_app_iff. simpl.
      intros [Hin|[->|[]]].
      * revert Hin. apply Hfresh. now right.
      * contradiction.
Qed.

Lemma fill_fields_as_map (fields : list string) (numbers : list pyfloat) :
  NoDup fields ->
  fill_fields fields numbers = map (positional numbers) (enumerate fields).
Proof.
  intros Hnd. unfold fill_fields, enumerate.
  apply (fill_loop_as_map numbers fields 0 [] Hnd). intros f _ [].
Qed.

Lemma populated_positional (numbers : list pyfloat) (fields : list string) :
  forall a : nat,
    populated (map (positional numbers) (combine (seq a (length fields)) fields))
    = Nat.min (length numbers - a) (length fields).
Proof.
  induction fields as [|f fields IH]; intros a; simpl.
  - now rewrite Nat.min_0_r.
  - unfold populated in *. simpl.
    destruct (nth_error numbers a) as [x|] eqn:Hx; simpl; rewrite IH.
    + assert (a < length numbers) by (apply nth_error_Some; congruence). lia.
    + apply nth_error_None in Hx. lia.
Qed.

Lemma populated_fill_fields (fields : list string) (numbers : list pyfloat) :
  NoDup fields ->
  populated (fill_fields fields numbers) = Nat.min (length numbers) (length fields).
Proof.
  intros Hnd. rewrite fill_fields_as_map by exact Hnd. unfold enumerate.
  rewrite populated_positional. now rewrite Nat.sub_0_r.
Qed.

Lemma populated_layout (L : layout) (numbers : list pyfloat) :
  populated (layout_result L numbers)
  = Nat.min (length numbers) (length (layout_fields L)).
Proof.
  destruct L; unfold layout_result, layout_fields.
  - rewrite oled_result_as_fill. apply populated_fill_fields, NoDup_oled_fields.
  - apply populated_fill_fields, NoDup_ipad_fields.
Qed.

Lemma Qdiv_nat_le_1 (n d : nat) :
  (0 < d)%nat ->
  (inject_Z (Z.of_nat n) / inject_Z (Z.of_nat d) <= 1)%Q <-> (n <= d)%nat.
Proof.
  intros Hd.
  assert (Hpos : (0 < inject_Z (Z.of_nat d))%Q).
  { unfold Qlt. simpl. lia. }
  split; intros H.
  - apply (Qmult_le_compat_r _ _ (inject_Z (Z.of_nat d))) in H; [|now apply Qlt_le_weak].
    rewrite Qmult_1_l in H. unfold Qdiv in H.
    rewrite <- Qmult_assoc, (Qmult_comm (/ _)), Qmult_inv_r, Qmult_1_r in H
      by (intros E; rewrite E in Hpos; discriminate).
    rewrite <- Zle_Qle in H. lia.
  - apply Qle_shift_div_r; [exact Hpos|]. rewrite Qmult_1_l, <- Zle_Qle. lia.
Qed.

Lemma ipad_confidence_is_coverage (numbers : list pyfloat) :
  (ipad_confidence numbers == coverage TABLET numbers)%Q.
Proof.
  unfold coverage, ipad_confidence, py_min. rewrite populated_layout.
  set (d := length (layout_fields TABLET)).
  change (length ipad_fields) with d.
  assert (Hd : (0 < d)%nat) by (unfold d; simpl; lia).
  unfold float_of_len.
  destruct (Qle_bool 1 (inject_Z (Z.of_nat (length numbers)) / inject_Z (Z.of_nat d)))
    eqn:Hb.
  - apply Qle_bool_iff in Hb.
    destruct (Nat.le_gt_cases d (length numbers)) as [Hge|Hlt].
    + rewrite Nat.min_r by exact Hge. symmetry. apply Q.min_l.
      apply Qle_shift_div_l; [unfold Qlt; simpl; lia|]. rewrite Qmult_1_l. apply Qle_refl.
    + rewrite Nat.min_l by lia. symmetry. apply Q.min_l. exact Hb.
  - assert (Hlt : ~ (1 <= inject_Z (Z.of_nat (length numbers)) / inject_Z (Z.of_nat d))%Q).
    { intros H. apply Qle_bool_iff in H. congruence. }
    apply Qnot_le_lt in Hlt. apply Qlt_le_weak in Hlt.
    pose proof (proj1 (Qdiv_nat_le_1 _ _ Hd) Hlt) as Hle.
    rewrite Nat.min_l by exact Hle. symmetry. apply Q.min_r. exact Hlt.
Qed.

Lemma ipad_confidence_bounds (numbers : list pyfloat) :
  (0 <= ipad_confidence numbers <= 1)%Q.
Proof.
  unfold ipad_confidence, py_min, float_of_len.
  set (x := (inject_Z (Z.of_nat (length numbers))
             / inject_Z (Z.of_nat (length ipad_fields)))%Q).
  assert (Hx : (0 <= x)%Q).
  { unfold x. apply Qle_shift_div_l; [unfold Qlt; simpl; lia|].
    rewrite Qmult_0_l, <- (Zle_Qle 0). lia. }
  destruct (Qle_bool 1 x) eqn:Hb.
  - split; [discriminate | apply Qle_refl].
  - split; [exact Hx|].
    apply Qlt_le_weak, Qnot_le_lt. intros H. apply Qle_bool_iff in H. congruence.
Qed.

(** C7. For the empty sequence and both layouts, every field of the layout
    is a key holding [None], and the confidence is exactly 0. *)
Theorem empty_sequence_reading (L : layout) :
  layout_result L [] = map (fun f => (f, None)) (layout_fields L) /\
  (layout_confidence L [] == 0)%Q.
Proof. destruct L; split; reflexivity. Qed.

(** Every field is populated once the sequence is as long as the layout. *)
Lemma full_sequence_fills_fields (L : layout) (numbers : list pyfloat) (f : string) :
  length (layout_fields L) <= length numbers ->
  In f (layout_fields L) ->
  exists x, dict_get (layout_result L numbers) f = Some (Some x).
Proof.
  intros Hlen Hin. apply In_nth_error in Hin. destruct Hin as [i Hi].
  rewrite (layout_result_get L numbers i f Hi).
  assert (Hlt : i < length numbers).
  { assert (i < length (layout_fields L)) by (apply nth_error_Some; congruence). lia. }
  apply nth_error_Some in Hlt.
  destruct (nth_error numbers i) as [x|]; [now exists x | contradiction].
Qed.

Lemma tablet_confidence_full (numbers : list pyfloat) :
  length (layout_fields TABLET) <= length numbers ->
  (layout_confidence TABLET numbers == 1)%Q.
Proof.
  intros Hlen. simpl. rewrite ipad_confidence_is_coverage.
  unfold coverage. rewrite populated_layout, Nat.min_r by exact Hlen.
  apply Q.min_l. apply Qle_shift_div_l; [unfold Qlt; simpl; lia|].
  rewrite Qmult_1_l. apply Qle_refl.
Qed.

(** C1. On the OLED path the confidence of line 85 is [len(numbers) / 4.0]
    with no cap: the text "1 2 3 4 5" gives five numbers, four fields are
    populated, the coverage is 1, and the confidence returned is 5/4,
    outside [0, 1].  (The tablet path does return the capped coverage:
    [ipad_confidence_is_coverage], [ipad_confidence_bounds].) *)
Theorem oled_confidence_exceeds_one :
  fst (extract_numbers_from_text __init__ (str "1 2 3 4 5")) = five_numbers /\
  populated (layout_result OLED five_numbers) = 4 /\
  (coverage OLED five_numbers == 1)%Q /\
  (layout_confidence OLED five_numbers == 5 # 4)%Q /\
  ~ (layout_confidence OLED five_numbers <= 1)%Q.
Proof.
  split; [vm_compute; reflexivity|].
  split; [reflexivity|]. split; [reflexivity|]. split; [reflexivity|].
  intros H. vm_compute in H. apply H. reflexivity.
Qed.

(** C3. On the OLED path a sequence longer than the layout populates every
    field, yet the confidence of line 85 is not 1: five numbers give 5/4.
    (With exactly four numbers, and on the tablet path for any sequence of
    sixteen or more, it is 1: [tablet_confidence_full].) *)
Theorem oled_confidence_not_one_when_longer :
  length (layout_fields OLED) <= length five_numbers /\
  (forall f, In f (layout_fields OLED) ->
     exists x, dict_get (layout_result OLED five_numbers) f = Some (Some x)) /\
  ~ (layout_confidence OLED five_numbers == 1)%Q.
Proof.
  split; [simpl; lia|]. split.
  - intros f Hin. apply full_sequence_fills_fields; [simpl; lia | exact Hin].
  - intros H. vm_compute in H. discriminate H.
Qed.

(** ** The matcher: what a match consumes *)

Lemma greedy_sound {A : Type} (p : ascii -> bool) (next : text -> option A) :
  forall (s : text) (r : A),
    greedy p next s = Some r ->
    exists u rest, s = u ++ rest /\ Forall (fun c => p c = true) u /\ next rest = Some r.
Proof.
  induction s as [|c s IH]; intros r H; simpl in H.
  - exists [], []. auto.
  - destruct (p c) eqn:Hc.
    + destruct (greedy p next s) as [r'|] eqn:Hg.
      * injection H as <-. destruct (IH r' eq_refl) as (u & rest & -> & Hu & Hn).
        exists (c :: u), rest. auto.
      * exists [], (c :: s). auto.
    + exists [], (c :: s). auto.
Qed.

Lemma match_items_sound {A : Type} (ic : bool) (its : list item) :
  forall (k : text -> option A) (s : text) (r : A),
    match_items ic its k s = Some r ->
    exists w rest, s = w ++ rest /\ spans ic its w /\ k rest = Some r.
Proof.
  induction its as [|[cl q] its IH]; intros k s r H; simpl in H.
  - exists [], s. repeat split; [constructor | exact H].
  - destruct q.
    + destruct s as [|c s]; [discriminate|].
      destruct (accepts ic cl c) eqn:Hc; [|discriminate].
      destruct (IH _ _ _ H) as (w & rest & -> & Hw & Hk).
      exists (c :: w), rest. repeat split; [now constructor | exact Hk].
    + assert (Hskip : match_items ic its k s = Some r ->
                      exists w rest, s = w ++ rest
                                     /\ spans ic ((cl, Optional) :: its) w
                                     /\ k rest = Some r).
      { intros H'. destruct (IH _ _ _ H') as (w & rest & -> & Hw & Hk).
        exists w, rest. repeat split; [now apply spans_skip | exact Hk]. }
      destruct s as [|c s]; [now apply Hskip|].
      destruct (accepts ic cl c) eqn:Hc; [|now apply Hskip].
      destruct (match_items ic its k s) as [r'|] eqn:Hm; [|now apply Hskip].
      injection H as <-.
      destruct (IH _ _ _ Hm) as (w & rest & -> & Hw & Hk).
      exists (c :: w), rest. repeat split; [now apply spans_take | exact Hk].
    + destruct (greedy_sound _ _ _ _ H) as (u & rest0 & -> & Hu & Hn).
      destruct (IH _ _ _ Hn) as (w & rest & -> & Hw & Hk).
      exists (u ++ w), rest. rewrite app_assoc.
      repeat split; [now apply spans_star | exact Hk].
    + destruct s as [|c s]; [discriminate|].
      destruct (accepts ic cl c) eqn:Hc; [|discriminate].
      destruct (greedy_sound _ _ _ _ H) as (u & rest0 & -> & Hu & Hn).
      destruct (IH _ _ _ Hn) as (w & rest & -> & Hw & Hk).
      exists (c :: u ++ w), rest. simpl. rewrite app_assoc.
      repeat split; [now apply spans_plus | exact Hk].
Qed.

Lemma firstn_sub_app (w rest : text) :
  firstn (length (w ++ rest) - length rest) (w ++ rest) = w.
Proof.
  rewrite length_app, Nat.add_sub.
  rewrite firstn_app, Nat.sub_diag, firstn_all. simpl. apply app_nil_r.
Qed.

Lemma match_at_sound (ic : bool) (re : regex) (s cap : text) (len : nat) :
  match_at ic re s = Some (cap, len) ->
  exists w rest,
    s = cap ++ w ++ rest /\ spans ic (group1 re) cap /\ spans ic (suffix re) w
    /\ len = length cap + length w.
Proof.
  unfold match_at. intros H.
  destruct (match_items_sound _ _ _ _ _ H) as (w1 & rest1 & -> & Hw1 & H1).
  destruct (match_items_sound _ _ _ _ _ H1) as (w2 & rest2 & -> & Hw2 & H2).
  injection H2 as <- <-.
  exists w2, rest2. rewrite firstn_sub_app. repeat split; trivial.
  rewrite !length_app. lia.
Qed.

Lemma findall_from_captures (ic : bool) (re : regex) :
  forall (s : text) (n : nat) (m : text),
    In m (findall_from ic re n s) -> spans ic (group1 re) m.
Proof.
  induction s as [|c s IH]; intros n m Hin.
  - destruct n as [|n]; simpl in Hin; [|contradiction].
    destruct (match_at ic re []) as [[cap len]|] eqn:Hm; [|contradiction].
    destruct Hin as [<-|[]].
    now destruct (match_at_sound _ _ _ _ _ Hm) as (_ & _ & _ & Hcap & _).
  - destruct n as [|n]; simpl in Hin; [|now apply IH in Hin].
    destruct (match_at ic re (c :: s)) as [[cap len]|] eqn:Hm.
    + destruct Hin as [<-|Hin]; [|now apply IH in Hin].
      now destruct (match_at_sound _ _ _ _ _ Hm) as (_ & _ & _ & Hcap & _).
    + now apply IH in Hin.
Qed.

(** ** What the number group captures, and its conversion *)

Lemma accepts_dot (c : ascii) : accepts true (Lit ".") c = true -> c = ".".
Proof. each_ascii c; vm_compute; intros H; (reflexivity || discriminate H). Qed.

Lemma accepts_minus (c : ascii) : accepts true (Lit "-") c = true -> c = "-".
Proof. each_ascii c; vm_compute; intros H; (reflexivity || discriminate H). Qed.

Lemma spans_number_group (m : text) : spans true number_group m -> number_text m.
Proof.
  unfold number_group. intros H.
  inversion H as [| | | | |cl its c u w Hc Hu Hw]; subst; clear H.
  assert (Htail : forall w', spans true [(Digit, ZeroOrMore)] w' -> all_digits w').
  { intros w' H'. inversion H' as [| | | |cl its u' w'' Hu' Hnil|]; subst.
    inversion Hnil; subst. rewrite app_nil_r. exact Hu'. }
  inversion Hw as [| |cl its w' Hskip|cl its c' w' Hc' Htake| |]; subst; clear Hw.
  - apply Htail in Hskip. apply number_int; [discriminate|].
    constructor; [exact Hc|]. now apply Forall_app.
  - apply Htail in Htake. apply accepts_dot in Hc'. subst c'.
    change (c :: u ++ "." :: w') with ((c :: u) ++ "." :: w').
    apply number_point; [discriminate | now constructor | exact Htake].
Qed.

Lemma spans_signed_number (m : text) :
  spans true (group1 pat_any) m ->
  number_text m \/ exists m', m = "-" :: m' /\ number_text m'.
Proof.
  simpl. intros H.
  inversion H as [| |cl its w Hskip|cl its c w Hc Htake| |]; subst; clear H.
  - left. now apply spans_number_group.
  - right. apply accepts_minus in Hc. subst c.
    exists w. split; [reflexivity | now apply spans_number_group].
Qed.

Lemma span_digits_app (u r : text) :
  all_digits u ->
  span_digits (u ++ r) = (u ++ fst (span_digits r), snd (span_digits r)).
Proof.
  induction 1 as [|c u Hc Hu IH]; simpl.
  - now destruct (span_digits r).
  - rewrite Hc, IH. reflexivity.
Qed.

Lemma span_digits_all (u : text) : all_digits u -> span_digits u = (u, []).
Proof.
  intros Hu. rewrite <- (app_nil_r u) at 1. rewrite span_digits_app by exact Hu.
  simpl. now rewrite app_nil_r.
Qed.

Lemma parse_decimal_int (u : text) :
  u <> [] -> all_digits u -> parse_decimal u = Some (decimal u []).
Proof.
  intros Hne Hu. unfold parse_decimal, decimal.
  rewrite span_digits_all by exact Hu. rewrite app_nil_r.
  destruct u as [|c u]; [contradiction | reflexivity].
Qed.

Lemma parse_decimal_point (a b : text) :
  a <> [] -> all_digits a -> all_digits b ->
  parse_decimal (a ++ "." :: b) = Some (decimal a b).
Proof.
  intros Hne Ha Hb. unfold parse_decimal, decimal.
  rewrite span_digits_app by exact Ha. simpl. rewrite app_nil_r.
  rewrite span_digits_all by exact Hb.
  destruct a as [|c a]; [contradiction | reflexivity].
Qed.

Lemma parse_decimal_number (m : text) :
  number_text m -> exists q, parse_decimal m = Some q.
Proof.
  intros [u Hne Hu|a b Hne Ha Hb].
  - eexists. now apply parse_decimal_int.
  - eexists. now apply parse_decimal_point.
Qed.

Lemma number_char_plain (c : ascii) :
  number_char c = true -> Ascii.eqb c "_" = false /\ is_float_space c = false.
Proof. each_ascii c; vm_compute; intros H; (discriminate H || (split; reflexivity)). Qed.

Lemma digit_number_char (c : ascii) : is_digit c = true -> number_char c = true.
Proof. unfold number_char. now intros ->. Qed.

Lemma number_text_chars (m : text) :
  number_text m -> Forall (fun c => number_char c = true) m.
Proof.
  intros [u _ Hu|a b _ Ha Hb].
  - eapply Forall_impl; [|exact Hu]. exact digit_number_char.
  - apply Forall_app. split; [|constructor; [reflexivity|]];
      (eapply Forall_impl; [exact digit_number_char | assumption]).
Qed.

Lemma number_text_head (m : text) :
  number_text m -> exists c u, m = c :: u /\ is_digit c = true.
Proof.
  intros [u Hne Hu|a b Hne Ha Hb].
  - destruct u as [|c u]; [contradiction|]. inversion Hu; subst. now exists c, u.
  - destruct a as [|c a]; [contradiction|]. inversion Ha; subst.
    now exists c, (a ++ "." :: b).
Qed.

Lemma drop_underscores_plain (s : text) :
  forall prev : ascii,
    Ascii.eqb prev "_" = false ->
    Forall (fun c => Ascii.eqb c "_" = false) s ->
    drop_underscores prev s = Some s.
Proof.
  induction s as [|c s IH]; intros prev Hprev Hs; simpl.
  - now rewrite Hprev.
  - inversion Hs as [|? ? Hc Hs']; subst.
    rewrite Hc, Hprev. simpl. now rewrite IH.
Qed.

Lemma lstrip_plain (s : text) :
  Forall (fun c => is_float_space c = false) s -> lstrip s = s.
Proof. intros [|c s' Hc _]; simpl; [reflexivity | now rewrite Hc]. Qed.

Lemma strip_plain (s : text) :
  Forall (fun c => is_float_space c = false) s -> strip s = s.
Proof.
  intros Hs. unfold strip. rewrite (lstrip_plain s Hs).
  rewrite lstrip_plain by now apply Forall_rev.
  apply rev_involutive.
Qed.

Lemma digit_head_not_special (c : ascii) (u : text) :
  is_digit c = true ->
  split_sign (c :: u) = (false, c :: u) /\
  text_eqb (map to_lower (c :: u)) (str "inf") = false /\
  text_eqb (map to_lower (c :: u)) (str "infinity") = false /\
  text_eqb (map to_lower (c :: u)) (str "nan") = false.
Proof.
  each_ascii c; intros H; try discriminate H; repeat split; reflexivity.
Qed.

(** [float] after the underscore and whitespace steps, which leave a text
    of digits, points and minus signs alone. *)
Lemma py_float_plain (s : text) :
  Forall (fun c => number_char c = true) s ->
  py_float s =
  let (neg, s2) := split_sign s in
  let low := map to_lower s2 in
  if text_eqb low (str "inf") || text_eqb low (str "infinity") then Some (Infinity neg)
  else if text_eqb low (str "nan") then Some NaN
  else match parse_decimal s2 with
       | Some q => Some (Finite (if neg then Qopp q else q))
       | None => None
       end.
Proof.
  intros Hs. unfold py_float.
  rewrite drop_underscores_plain; [|reflexivity|].
  - rewrite strip_plain; [reflexivity|].
    eapply Forall_impl; [|exact Hs]. intros c Hc. now apply number_char_plain.
  - eapply Forall_impl; [|exact Hs]. intros c Hc. now apply number_char_plain.
Qed.

Lemma py_float_number (m : text) :
  number_text m ->
  exists q, parse_decimal m = Some q /\ py_float m = Some (Finite q).
Proof.
  intros Hm. destruct (parse_decimal_number m Hm) as [q Hq]. exists q. split; [exact Hq|].
  rewrite py_float_plain by now apply number_text_chars.
  destruct (number_text_head m Hm) as (c & u & -> & Hc).
  destruct (digit_head_not_special c u Hc) as (Hsign & Hinf & Hinfinity & Hnan).
  rewrite Hsign. cbv beta iota zeta.
  rewrite Hinf, Hinfinity, Hnan. simpl. now rewrite Hq.
Qed.

Lemma py_float_minus_number (m : text) :
  number_text m ->
  exists q, parse_decimal m = Some q /\ py_float ("-" :: m) = Some (Finite (- q)).
Proof.
  intros Hm. destruct (parse_decimal_number m Hm) as [q Hq]. exists q. split; [exact Hq|].
  rewrite py_float_plain
    by (constructor; [reflexivity | now apply number_text_chars]).
  destruct (number_text_head m Hm) as (c & u & -> & Hc).
  destruct (digit_head_not_special c u Hc) as (_ & Hinf & Hinfinity & Hnan).
  change (split_sign ("-" :: c :: u)) with (true, c :: u). cbv beta iota zeta.
  rewrite Hinf, Hinfinity, Hnan. simpl. now rewrite Hq.
Qed.

Lemma group1_of_patterns (p : regex) :
  In p patterns -> group1 p = number_group \/ p = pat_any.
Proof.
  unfold patterns, unit_patterns. simpl.
  intros [<-|[<-|[<-|[<-|[<-|[<-|[]]]]]]]; auto.
Qed.

(** Every text a pattern captures converts to a finite float. *)
Lemma capture_converts (p : regex) (s m : text) :
  In p patterns -> In m (findall p s true) ->
  exists q, py_float m = Some (Finite q).
Proof.
  intros Hp Hm. apply findall_from_captures in Hm.
  destruct (group1_of_patterns p Hp) as [Hg| ->].
  - rewrite Hg in Hm. apply spans_number_group in Hm.
    destruct (py_float_number m Hm) as (q & _ & Hq). now exists q.
  - apply spans_signed_number in Hm. destruct Hm as [Hm|(m' & -> & Hm)].
    + destruct (py_float_number m Hm) as (q & _ & Hq). now exists q.
    + destruct (py_float_minus_number m' Hm) as (q & _ & Hq). now exists (- q)%Q.
Qed.

(** ** The extraction as a concatenation *)

Lemma converted_app (xs ys : list text) :
  converted (xs ++ ys) = converted xs ++ converted ys.
Proof. apply flat_map_app. Qed.

Lemma fold_try_append (ms : list text) :
  forall acc : list pyfloat, fold_left try_append ms acc = acc ++ converted ms.
Proof.
  induction ms as [|m ms IH]; intros acc; simpl.
  - now rewrite app_nil_r.
  - rewrite IH. unfold try_append.
    destruct (py_float m) as [v|]; [now rewrite <- app_assoc | reflexivity].
Qed.

Lemma fold_patterns (t : text) (ps : list regex) :
  forall acc : list pyfloat,
    fold_left
      (fun numbers pattern => fold_left try_append (findall pattern t true) numbers)
      ps acc
    = acc ++ converted (flat_map (fun p => findall p t true) ps).
Proof.
  induction ps as [|p ps IH]; intros acc; simpl.
  - now rewrite app_nil_r.
  - rewrite IH, fold_try_append, converted_app. now rewrite app_assoc.
Qed.

Lemma extract_as_converted (self : FullSwingOCR) (t : text) :
  fst (extract_numbers_from_text self t) = converted (all_matches (normalize t)).
Proof. exact (fold_patterns (normalize t) patterns []). Qed.

Lemma converted_all (ms : list text) :
  (forall m, In m ms -> exists q, py_float m = Some (Finite q)) ->
  map Some (converted ms) = map py_float ms.
Proof.
  induction ms as [|m ms IH]; intros H; simpl; [reflexivity|].
  destruct (H m (or_introl eq_refl)) as [q Hq]. rewrite Hq. simpl.
  f_equal. apply IH. intros m' Hm'. apply H. now right.
Qed.

Lemma all_matches_convert (t m : text) :
  In m (all_matches t) -> exists q, py_float m = Some (Finite q).
Proof.
  unfold all_matches. rewrite in_flat_map. intros (p & Hp & Hm).
  now apply (capture_converts p t m).
Qed.

Lemma in_converted (ms : list text) (m : text) (v : pyfloat) :
  In m ms -> py_float m = Some v -> In v (converted ms).
Proof.
  intros Hm Hv. unfold converted. rewrite in_flat_map.
  exists m. split; [exact Hm|]. rewrite Hv. now left.
Qed.

(** C10. Whatever the text, every substring captured by any of the six
    patterns converts to a (finite) float, so the [except ValueError] branch
    is never taken: the sequence returned has one value per match. *)
Theorem every_capture_converts (self : FullSwingOCR) (t : text) :
  (forall p m, In p patterns -> In m (findall p t true) ->
     exists q, py_float m = Some (Finite q)) /\
  length (fst (extract_numbers_from_text self t))
  = length (all_matches (normalize t)).
Proof.
  split.
  - intros p m. apply capture_converts.
  - rewrite extract_as_converted.
    rewrite <- (length_map Some), <- (length_map py_float).
    f_equal. apply converted_all. apply all_matches_convert.
Qed.

Lemma every_capture_converts_witness :
  exists q, py_float (str "112.") = Some (Finite q).
Proof.
  apply (proj1 (every_capture_converts __init__ (str "85.3 mph 112.mph"))
           pat_mph (str "112.")).
  - simpl. auto.
  - vm_compute. auto.
Defined.

(** C4. The sequence returned is, value for value, the conversion of the
    matches of the [mph], [ft], degree, [rpm] and [/s] patterns followed by
    those of the generic pattern, all over the normalized text, nothing
    dropped or merged; so a capture found by a unit pattern and by the
    generic pattern gives its value at least twice. *)
Theorem extraction_order_and_duplicates (self : FullSwingOCR) (t : text) :
  map Some (fst (extract_numbers_from_text self t))
  = map py_float
      (findall pat_mph (normalize t) true ++ findall pat_ft (normalize t) true
       ++ findall pat_deg (normalize t) true ++ findall pat_rpm (normalize t) true
       ++ findall pat_per_s (normalize t) true ++ findall pat_any (normalize t) true)
  /\
  forall u m v,
    In u unit_patterns ->
    In m (findall u (normalize t) true) ->
    In m (findall pat_any (normalize t) true) ->
    py_float m = Some v ->
    2 <= count_occ pyfloat_eq_dec (fst (extract_numbers_from_text self t)) v.
Proof.
  rewrite extract_as_converted. split.
  - rewrite converted_all by apply all_matches_convert.
    unfold all_matches. simpl. now rewrite app_nil_r.
  - intros u m v Hu Hm Hany Hv.
    unfold all_matches, patterns. rewrite flat_map_app, converted_app, count_occ_app.
    assert (H1 : In v (converted (flat_map (fun p => findall p (normalize t) true)
                                    unit_patterns))).
    { apply (in_converted _ m); [|exact Hv]. apply in_flat_map. now exists u. }
    assert (H2 : In v (converted (flat_map (fun p => findall p (normalize t) true)
                                    [pat_any]))).
    { apply (in_converted _ m); [|exact Hv]. simpl. now rewrite app_nil_r. }
    apply (count_occ_In pyfloat_eq_dec) in H1, H2. lia.
Qed.

Lemma extraction_order_and_duplicates_witness :
  2 <= count_occ pyfloat_eq_dec
         (fst (extract_numbers_from_text __init__ (str "85.3 mph"))) (Finite (853 # 10)).
Proof.
  apply (proj2 (extraction_order_and_duplicates __init__ (str "85.3 mph"))
           pat_mph (str "85.3")).
  - simpl. auto.
  - vm_compute. auto.
  - vm_compute. auto.
  - vm_compute. reflexivity.
Defined.

(** ** Texts without a unit marker *)

Lemma spans_has_literal (ic : bool) (l : ascii) (its : list item) (w : text) :
  spans ic its w -> In (Lit l, Once) its ->
  Exists (fun c => accepts ic (Lit l) c = true) w.
Proof.
  induction 1 as [|cl its c w Hc Hw IH|cl its w Hw IH|cl its c w Hc Hw IH
                  |cl its u w Hu Hw IH|cl its c u w Hc Hu Hw IH]; intros Hin.
  - destruct Hin.
  - destruct Hin as [E|Hin].
    + injection E as ->. now apply Exists_cons_hd.
    + apply Exists_cons_tl. now apply IH.
  - destruct Hin as [E|Hin]; [discriminate E | now apply IH].
  - destruct Hin as [E|Hin]; [discriminate E | apply Exists_cons_tl; now apply IH].
  - destruct Hin as [E|Hin]; [discriminate E|].
    apply Exists_app. right. now apply IH.
  - destruct Hin as [E|Hin]; [discriminate E|].
    apply Exists_cons_tl, Exists_app. right. now apply IH.
Qed.

Lemma match_at_without_literal (ic : bool) (re : regex) (l : ascii) (s : text) :
  In (Lit l, Once) (suffix re) ->
  Forall (fun c => accepts ic (Lit l) c = false) s ->
  match_at ic re s = None.
Proof.
  intros Hin Hs. destruct (match_at ic re s) as [[cap len]|] eqn:Hm; [|reflexivity].
  destruct (match_at_sound _ _ _ _ _ Hm) as (w & rest & -> & _ & Hw & _).
  apply (spans_has_literal ic l) in Hw; [|exact Hin].
  apply Forall_app in Hs. destruct Hs as [_ Hs].
  apply Forall_app in Hs. destruct Hs as [Hs _].
  apply Exists_exists in Hw. destruct Hw as (c & Hc & Hacc).
  rewrite Forall_forall in Hs. rewrite (Hs c Hc) in Hacc. discriminate.
Qed.

Lemma findall_without_literal (ic : bool) (re : regex) (l : ascii) :
  In (Lit l, Once) (suffix re) ->
  forall (s : text) (n : nat),
    Forall (fun c => accepts ic (Lit l) c = false) s ->
    findall_from ic re n s = [].
Proof.
  intros Hin. induction s as [|c s IH]; intros n Hs.
  - destruct n; simpl; [|reflexivity].
    now rewrite (match_at_without_literal ic re l []).
  - destruct n; simpl.
    + rewrite (match_at_without_literal ic re l (c :: s)) by assumption.
      apply IH. now inversion Hs.
    + apply IH. now inversion Hs.
Qed.

Lemma number_char_no_unit (c : ascii) :
  number_char c = true ->
  accepts true (Lit "m") c = false /\ accepts true (Lit "f") c = false /\
  accepts true (Lit degree_sign) c = false /\ accepts true (Lit "r") c = false /\
  accepts true (Lit "/") c = false.
Proof.
  each_ascii c; vm_compute; intros H; (discriminate H || (repeat split; reflexivity)).
Qed.

Lemma unit_patterns_find_nothing (u : regex) (s : text) :
  In u unit_patterns ->
  Forall (fun c => number_char c = true) s ->
  findall u s true = [].
Proof.
  intros Hu Hs. unfold findall.
  assert (H : forall l,
             (forall c, number_char c = true -> accepts true (Lit l) c = false) ->
             In (Lit l, Once) (suffix u) -> findall_from true u 0 s = []).
  { intros l Hl Hin. apply (findall_without_literal true u l Hin).
    eapply Forall_impl; [|exact Hs]. exact Hl. }
  destruct Hu as [<-|[<-|[<-|[<-|[<-|[]]]]]].
  - apply (H "m"); [intros c Hc; apply number_char_no_unit, Hc | simpl; auto].
  - apply (H "f"); [intros c Hc; apply number_char_no_unit, Hc | simpl; auto].
  - apply (H degree_sign); [intros c Hc; apply number_char_no_unit, Hc | simpl; auto].
  - apply (H "r"); [intros c Hc; apply number_char_no_unit, Hc | simpl; auto].
  - apply (H "/"); [intros c Hc; apply number_char_no_unit, Hc | simpl; auto].
Qed.

Lemma number_char_normalized (c : ascii) :
  number_char c = true -> normalize_char c = c.
Proof. each_ascii c; vm_compute; intros H; (discriminate H || reflexivity). Qed.

Lemma normalize_number_chars (s : text) :
  Forall (fun c => number_char c = true) s -> normalize s = s.
Proof.
  intros Hs. rewrite normalize_as_map.
  induction Hs as [|c s Hc Hs IH]; simpl; [reflexivity|].
  now rewrite IH, number_char_normalized.
Qed.

(** ** The generic pattern on digit runs *)

Lemma greedy_run {A : Type} (p : ascii -> bool) (next : text -> option A)
      (u rest : text) (r : A) :
  Forall (fun c => p c = true) u ->
  match rest with [] => True | c :: _ => p c = false end ->
  next rest = Some r ->
  greedy p next (u ++ rest) = Some r.
Proof.
  intros Hu Hstop Hnext. induction Hu as [|c u Hc Hu IH]; simpl.
  - destruct rest as [|c rest]; simpl; [exact Hnext|]. now rewrite Hstop.
  - now rewrite Hc, IH.
Qed.

Lemma digit_not_minus (c : ascii) : is_digit c = true -> accepts true (Lit "-") c = false.
Proof.
  intros Hc. destruct (accepts true (Lit "-") c) eqn:E; [|reflexivity].
  apply accepts_minus in E. subst c. discriminate Hc.
Qed.

Lemma match_any_point {A : Type} (k : text -> option A) (a b rest : text) (r : A) :
  a <> [] -> all_digits a -> all_digits b -> stops_digits rest ->
  k rest = Some r ->
  match_items true (group1 pat_any) k (a ++ "." :: b ++ rest) = Some r.
Proof.
  intros Hne Ha Hb Hstop Hk.
  destruct a as [|c a]; [contradiction|]. inversion Ha as [|? ? Hc Ha']; subst.
  cbn [group1 pat_any number_group match_items app].
  rewrite (digit_not_minus c Hc).
  cbn [accepts]. rewrite Hc.
  apply greedy_run; [exact Ha' | reflexivity|].
  change (Ascii.eqb (to_lower ".") (to_lower ".")) with true. cbv iota.
  now rewrite (greedy_run (accepts true Digit) (fun s => k s) b rest r Hb Hstop Hk).
Qed.

Lemma match_any_int {A : Type} (k : text -> option A) (a : text) (r : A) :
  a <> [] -> all_digits a ->
  k [] = Some r ->
  match_items true (group1 pat_any) k a = Some r.
Proof.
  intros Hne Ha Hk.
  destruct a as [|c a]; [contradiction|]. inversion Ha as [|? ? Hc Ha']; subst.
  cbn [group1 pat_any number_group match_items app].
  rewrite (digit_not_minus c Hc).
  cbn [accepts]. rewrite Hc.
  rewrite <- (app_nil_r a). apply greedy_run; [exact Ha' | exact I | exact Hk].
Qed.

Lemma match_at_any_point (a b rest : text) :
  a <> [] -> all_digits a -> all_digits b -> stops_digits rest ->
  match_at true pat_any (a ++ "." :: b ++ rest)
  = Some (a ++ "." :: b, length (a ++ "." :: b)).
Proof.
  intros Hne Ha Hb Hstop. unfold match_at.
  apply match_any_point; trivial. cbn [suffix pat_any match_items].
  replace (a ++ "." :: b ++ rest) with ((a ++ "." :: b) ++ rest)
    by (rewrite <- app_assoc; reflexivity).
  rewrite firstn_sub_app. do 2 f_equal. rewrite length_app. lia.
Qed.

Lemma match_at_any_int (a : text) :
  a <> [] -> all_digits a -> match_at true pat_any a = Some (a, length a).
Proof.
  intros Hne Ha. unfold match_at.
  apply match_any_int; trivial. cbn [suffix pat_any match_items length].
  now rewrite !Nat.sub_0_r, firstn_all.
Qed.

Lemma findall_from_skip (ic : bool) (re : regex) (u s : text) :
  findall_from ic re (length u) (u ++ s) = findall_from ic re 0 s.
Proof. induction u as [|c u IH]; simpl; [reflexivity | exact IH]. Qed.

Lemma findall_from_match (ic : bool) (re : regex) (w rest cap : text) :
  w <> [] ->
  match_at ic re (w ++ rest) = Some (cap, length w) ->
  findall_from ic re 0 (w ++ rest) = cap :: findall_from ic re 0 rest.
Proof.
  intros Hne Hm. destruct w as [|c w]; [contradiction|].
  simpl app in *. simpl findall_from. rewrite Hm. simpl length. simpl pred.
  now rewrite findall_from_skip.
Qed.

Lemma findall_any_two_points (a b c : text) :
  a <> [] -> c <> [] -> all_digits a -> all_digits b -> all_digits c ->
  findall pat_any (a ++ "." :: b ++ "." :: c) true = [a ++ "." :: b; c].
Proof.
  intros Ha Hc Da Db Dc. unfold findall.
  replace (a ++ "." :: b ++ "." :: c) with ((a ++ "." :: b) ++ "." :: c)
    by (rewrite <- app_assoc; reflexivity).
  rewrite (findall_from_match true pat_any (a ++ "." :: b) ("." :: c) (a ++ "." :: b)).
  - f_equal. simpl findall_from.
    change (match_at true pat_any ("." :: c)) with (@None (text * nat)).
    rewrite <- (app_nil_r c) at 1.
    rewrite (findall_from_match true pat_any c [] c); trivial.
    rewrite app_nil_r. now apply match_at_any_int.
  - destruct a; [contradiction | discriminate].
  - rewrite <- app_assoc. simpl app. apply match_at_any_point; trivial. reflexivity.
Qed.

Lemma py_float_point (a b : text) :
  a <> [] -> all_digits a -> all_digits b ->
  py_float (a ++ "." :: b) = Some (Finite (decimal a b)).
Proof.
  intros Hne Ha Hb.
  destruct (py_float_number _ (number_point a b Hne Ha Hb)) as (q & Hq & Hf).
  rewrite parse_decimal_point in Hq by assumption. now injection Hq as <-.
Qed.

Lemma py_float_int (u : text) :
  u <> [] -> all_digits u -> py_float u = Some (Finite (decimal u [])).
Proof.
  intros Hne Hu.
  destruct (py_float_number _ (number_int u Hne Hu)) as (q & Hq & Hf).
  rewrite parse_decimal_int in Hq by assumption. now injection Hq as <-.
Qed.

Lemma flat_map_all_nil {A B : Type} (f : A -> list B) (l : list A) :
  (forall x, In x l -> f x = []) -> flat_map f l = [].
Proof.
  induction l as [|x l IH]; intros H; simpl; [reflexivity|].
  rewrite (H x (or_introl eq_refl)). apply IH. intros y Hy. apply H. now right.
Qed.

Lemma two_points_chars (a b c : text) :
  all_digits a -> all_digits b -> all_digits c ->
  Forall (fun x => number_char x = true) (a ++ "." :: b ++ "." :: c).
Proof.
  intros Da Db Dc.
  assert (H : forall u, all_digits u -> Forall (fun x => number_char x = true) u).
  { intros u Hu. eapply Forall_impl; [|exact Hu]. exact digit_number_char. }
  apply Forall_app. split; [now apply H|]. constructor; [reflexivity|].
  apply Forall_app. split; [now apply H|]. constructor; [reflexivity | now apply H].
Qed.

(** The text that is exactly a token with two points. *)
Lemma two_points_text_values (self : FullSwingOCR) (a b c : text) :
  a <> [] -> c <> [] -> all_digits a -> all_digits b -> all_digits c ->
  fst (extract_numbers_from_text self (a ++ "." :: b ++ "." :: c))
  = [Finite (decimal a b); Finite (decimal c [])].
Proof.
  intros Ha Hc Da Db Dc.
  pose proof (two_points_chars a b c Da Db Dc) as Hchars.
  rewrite extract_as_converted, normalize_number_chars by exact Hchars.
  unfold all_matches, patterns. rewrite flat_map_app.
  assert (Hunits : flat_map (fun p => findall p (a ++ "." :: b ++ "." :: c) true)
                     unit_patterns = []).
  { apply flat_map_all_nil. intros u Hu. now apply unit_patterns_find_nothing. }
  rewrite Hunits. simpl flat_map. rewrite app_nil_r. simpl app.
  rewrite findall_any_two_points by assumption.
  unfold converted. simpl.
  rewrite py_float_point, py_float_int by assumption. reflexivity.
Qed.

(** C5, as the specification has it, fails: the text [1.2.3] is not
    excluded, it contributes the two values 1.2 and 3. *)
Lemma two_points_token_not_excluded :
  fst (extract_numbers_from_text __init__ (str "1.2.3")) = [Finite (6 # 5); Finite 3] /\
  fst (extract_numbers_from_text __init__ (str "1.2.3")) <> [].
Proof. split; [vm_compute; reflexivity | vm_compute; discriminate]. Qed.

(** ** What a successful run returns *)

Section Readings.

Context {B : Backend}.

Lemma process_oled_display_reading (self self' : FullSwingOCR) (path : text) (r : reading) :
  process_oled_display self path = (Returns r, self') ->
  exists t,
    r = (layout_result OLED (fst (extract_numbers_from_text self t)), t,
         layout_confidence OLED (fst (extract_numbers_from_text self t)))
    /\ self' = self.
Proof.
  unfold process_oled_display, preprocess_image.
  destruct (cvtColor (imread path)) as [gray|e]; [|discriminate].
  destruct (shape _) as [height width].
  destruct (image_to_string _ _) as [t|e]; [|discriminate].
  intros H. injection H as <- <-. now exists t.
Qed.

Lemma process_ipad_display_reading (self self' : FullSwingOCR) (path : text) (r : reading) :
  process_ipad_display self path = (Returns r, self') ->
  exists t,
    r = (layout_result TABLET (fst (extract_numbers_from_text self t)), t,
         layout_confidence TABLET (fst (extract_numbers_from_text self t)))
    /\ self' = self.
Proof.
  unfold process_ipad_display, preprocess_image.
  destruct (cvtColor (imread path)) as [gray|e]; [|discriminate].
  destruct (shape _) as [height width].
  destruct (image_to_string _ _) as [t|e]; [|discriminate].
  intros H. injection H as <- <-. now exists t.
Qed.

End Readings.

(** ** Undecodable images *)

Section Undecodable.

Context {B : Backend}.

Lemma preprocess_unreadable (self : FullSwingOCR) (path : text) :
  imread path = None -> preprocess_image self path = (Raises cv2_error, self).
Proof. intros H. unfold preprocess_image. now rewrite H. Qed.

(** C6, as the code has it. When [imread] cannot decode the file, both
    display paths raise the [cv2.error] of the grayscale conversion (the
    code has no [ImageDecodeError] and classifies no failure), no reading
    is returned, and the view answers 500 with "Processing failed: ..."
    and leaves the fields, the confidence and the [processed] flag of the
    shot as they were. *)
Theorem undecodable_image_raises_cv2_error
        (self : FullSwingOCR) (display_type : string) (shot : Shot) :
  imread (image_path shot) = None ->
  process_oled_display self (image_path shot) = (Raises cv2_error, self) /\
  process_ipad_display self (image_path shot) = (Raises cv2_error, self) /\
  exc_class cv2_error = "cv2.error"%string /\
  fst (process_image display_type shot)
  = Response_error (str "Processing failed: " ++ empty_source_message) 500 /\
  shot_fields (snd (process_image display_type shot)) = shot_fields shot /\
  confidence_score (snd (process_image display_type shot)) = confidence_score shot /\
  processed (snd (process_image display_type shot)) = processed shot.
Proof.
  intros H.
  assert (Ho : forall s, process_oled_display s (image_path shot) = (Raises cv2_error, s)).
  { intros s. unfold process_oled_display. now rewrite preprocess_unreadable. }
  assert (Hi : forall s, process_ipad_display s (image_path shot) = (Raises cv2_error, s)).
  { intros s. unfold process_ipad_display. now rewrite preprocess_unreadable. }
  split; [apply Ho|]. split; [apply Hi|]. split; [reflexivity|].
  unfold process_image. rewrite Ho, Hi.
  destruct (String.eqb display_type "oled"); repeat split.
Qed.

End Undecodable.

Lemma undecodable_image_raises_cv2_error_witness :
  @imread unreadable_backend (str "shot.jpg") = None /\
  fst (@process_image unreadable_backend "oled" (new_shot (str "shot.jpg")))
  = Response_error
      (str "Processing failed: " ++ @empty_source_message unreadable_backend) 500.
Proof.
  split; [reflexivity|].
  exact (proj1 (proj2 (proj2 (proj2
           (@undecodable_image_raises_cv2_error unreadable_backend __init__ "oled"
              (new_shot (str "shot.jpg")) eq_refl))))).
Defined.

(** C6, as the specification has it, fails: on an undecodable file the
    exception raised is of class [cv2.error], not [ImageDecodeError]. *)
Lemma undecodable_image_not_ImageDecodeError :
  @imread unreadable_backend (str "shot.jpg") = None /\
  ~ (exists e,
        fst (@process_oled_display unreadable_backend __init__ (str "shot.jpg"))
        = Raises e
        /\ exc_class e = "ImageDecodeError"%string).
Proof.
  split; [reflexivity|]. intros (e & He & Hclass).
  vm_compute in He. injection He as <-. discriminate Hclass.
Qed.

(** * Further properties of the extraction *)

(** ** Normalization, position by position *)

Lemma normalize_char_not_confusable (c : ascii) : confusable (normalize_char c) = false.
Proof. each_ascii c; reflexivity. Qed.

(** X1. The four replacements of line 47 act position by position and do
    not feed one another: the text keeps its length, the character at each
    position becomes 0 for O and o, 1 for l and I, and is kept otherwise,
    and none of the four characters is left. *)
Theorem normalize_positionwise (t : text) :
  length (normalize t) = length t /\
  (forall i, nth_error (normalize t) i = option_map normalize_char (nth_error t i)) /\
  existsb confusable (normalize t) = false.
Proof.
  rewrite normalize_as_map. split; [apply length_map|]. split.
  - intros i. apply nth_error_map.
  - induction t as [|c t IH]; simpl; [reflexivity|].
    now rewrite normalize_char_not_confusable, IH.
Qed.

(** ** When the extraction is empty *)

Lemma greedy_total {A : Type} (p : ascii -> bool) (next : text -> option A) :
  (forall r, next r <> None) -> forall s, greedy p next s <> None.
Proof.
  intros Hnext. induction s as [|c s IH]; simpl; [apply Hnext|].
  destruct (p c); [|apply Hnext].
  destruct (greedy p next s); [discriminate | contradiction].
Qed.

Lemma match_any_digit_head {A : Type} (k : text -> option A) (d : ascii) (s : text) :
  is_digit d = true -> (forall r, k r <> None) ->
  match_items true (group1 pat_any) k (d :: s) <> None.
Proof.
  intros Hd Hk.
  cbn [group1 pat_any number_group match_items].
  rewrite (digit_not_minus d Hd). cbn [accepts]. rewrite Hd.
  apply greedy_total. intros r.
  assert (Hstar : forall r', greedy (accepts true Digit) (fun s0 => k s0) r' <> None)
    by (apply greedy_total; exact Hk).
  destruct r as [|c r]; [apply Hstar|].
  destruct (Ascii.eqb (to_lower c) (to_lower ".")); [|apply Hstar].
  destruct (greedy (accepts true Digit) (fun s0 => k s0) r) eqn:E;
    [discriminate | now apply Hstar in E].
Qed.

Lemma match_at_any_digit_head (d : ascii) (s : text) :
  is_digit d = true -> match_at true pat_any (d :: s) <> None.
Proof.
  intros Hd. unfold match_at. apply match_any_digit_head; [exact Hd|].
  intros r. cbn [suffix pat_any match_items]. discriminate.
Qed.

Lemma findall_any_finds_digit (s : text) :
  existsb is_digit s = true -> findall pat_any s true <> [].
Proof.
  unfold findall. induction s as [|c s IH]; simpl; [discriminate|].
  intros H. destruct (match_at true pat_any (c :: s)) as [[cap len]|] eqn:Hm.
  - discriminate.
  - destruct (is_digit c) eqn:Hc.
    + now apply match_at_any_digit_head in Hm.
    + apply IH. exact H.
Qed.

Lemma number_text_has_digit (m : text) : number_text m -> existsb is_digit m = true.
Proof.
  intros Hm. destruct (number_text_head m Hm) as (c & u & -> & Hc).
  simpl. now rewrite Hc.
Qed.

Lemma existsb_app_false {A : Type} (f : A -> bool) (a b : list A) :
  existsb f (a ++ b) = false -> existsb f a = false /\ existsb f b = false.
Proof. rewrite existsb_app. apply orb_false_elim. Qed.

Lemma match_at_needs_digit (p : regex) (s : text) :
  In p patterns -> existsb is_digit s = false -> match_at true p s = None.
Proof.
  intros Hp Hs. destruct (match_at true p s) as [[cap len]|] eqn:Hm; [|reflexivity].
  destruct (match_at_sound _ _ _ _ _ Hm) as (w & rest & -> & Hcap & _ & _).
  apply existsb_app_false in Hs. destruct Hs as [Hs _].
  assert (Hd : existsb is_digit cap = true).
  { destruct (group1_of_patterns p Hp) as [Hg| ->].
    - rewrite Hg in Hcap. now apply number_text_has_digit, spans_number_group.
    - apply spans_signed_number in Hcap. destruct Hcap as [Hn|(m' & -> & Hn)].
      + now apply number_text_has_digit.
      + simpl. now apply number_text_has_digit. }
  congruence.
Qed.

Lemma findall_without_digit (p : regex) (s : text) :
  In p patterns -> existsb is_digit s = false ->
  forall n, findall_from true p n s = [].
Proof.
  intros Hp. induction s as [|c s IH]; intros Hs n.
  - destruct n; simpl; [|reflexivity].
    now rewrite (match_at_needs_digit p [] Hp).
  - assert (Hs' : existsb is_digit s = false)
      by (simpl in Hs; now apply orb_false_elim in Hs).
    destruct n; simpl.
    + rewrite (match_at_needs_digit p (c :: s) Hp Hs). now apply IH.
    + now apply IH.
Qed.

Lemma converted_length (ms : list text) :
  (forall m, In m ms -> exists q, py_float m = Some (Finite q)) ->
  length (converted ms) = length ms.
Proof.
  intros H. rewrite <- (length_map Some), <- (length_map py_float).
  f_equal. now apply converted_all.
Qed.

(** X2. The sequence is empty exactly when the normalized text has no
    digit, that is when the text has no digit and none of O, o, l, I: any
    digit, or any of these four letters, gives at least one value. *)
Theorem extraction_empty_iff_no_digit (self : FullSwingOCR) (t : text) :
  fst (extract_numbers_from_text self t) = [] <->
  existsb is_digit (normalize t) = false.
Proof.
  rewrite extract_as_converted. split.
  - intros H. destruct (existsb is_digit (normalize t)) eqn:E; [|reflexivity].
    exfalso. apply findall_any_finds_digit in E. apply E.
    assert (Hlen : length (all_matches (normalize t)) = 0).
    { rewrite <- converted_length by apply all_matches_convert. now rewrite H. }
    apply length_zero_iff_nil in Hlen.
    unfold all_matches, patterns in Hlen. rewrite flat_map_app in Hlen.
    apply app_eq_nil in Hlen. destruct Hlen as [_ Hlen].
    simpl in Hlen. now rewrite app_nil_r in Hlen.
  - intros H. unfold all_matches.
    rewrite flat_map_all_nil; [reflexivity|].
    intros p Hp. now apply findall_without_digit.
Qed.

(** ** The sign of the values *)

Lemma digits_value_nonneg (ds : text) :
  forall acc : Z, (0 <= acc)%Z -> (0 <= digits_value acc ds)%Z.
Proof.
  induction ds as [|d ds IH]; intros acc Hacc; cbn [digits_value]; [exact Hacc|].
  apply IH. unfold digit_value. lia.
Qed.

Lemma decimal_nonneg (ip fp : text) : (0 <= decimal ip fp)%Q.
Proof.
  unfold decimal. rewrite Qred_correct.
  apply Qmult_le_0_compat.
  - rewrite <- (Zle_Qle 0). apply digits_value_nonneg. lia.
  - apply Qpower_0_le. discriminate.
Qed.

Lemma parse_decimal_nonneg (m : text) (q : Q) :
  number_text m -> parse_decimal m = Some q -> (0 <= q)%Q.
Proof.
  intros [u Hne Hu|a b Hne Ha Hb] Hq.
  - rewrite parse_decimal_int in Hq by assumption.
    injection Hq as <-. apply decimal_nonneg.
  - rewrite parse_decimal_point in Hq by assumption.
    injection Hq as <-. apply decimal_nonneg.
Qed.

Lemma group1_of_unit_patterns (u : regex) :
  In u unit_patterns -> group1 u = number_group.
Proof. intros [<-|[<-|[<-|[<-|[<-|[]]]]]]; reflexivity. Qed.

(** X3. The five unit patterns capture no sign: whatever the text, every
    match of theirs converts, and to a value that is not negative and not
    nan (the number it denotes is not below zero, so its float is 0.0,
    positive or inf), also when the reading is preceded by a minus sign,
    which only the generic pattern of line 56 captures. *)
Theorem unit_values_are_not_negative (t : text) (u : regex) (m : text) :
  In u unit_patterns -> In m (findall u t true) ->
  exists v, py_float m = Some v /\ not_negative v.
Proof.
  intros Hu Hm. apply findall_from_captures in Hm.
  rewrite (group1_of_unit_patterns u Hu) in Hm. apply spans_number_group in Hm.
  destruct (py_float_number m Hm) as (q & Hq & Hf).
  exists (Finite q). split; [exact Hf|]. simpl.
  now apply (parse_decimal_nonneg m).
Qed.

Lemma unit_values_are_not_negative_witness :
  exists v, py_float (str "5") = Some v /\ not_negative v.
Proof.
  apply (unit_values_are_not_negative (str "-5mph") pat_mph (str "5")).
  - simpl. auto.
  - vm_compute. auto.
Defined.

(** ** Letter case *)

Lemma is_digit_lower (c : ascii) : is_digit (to_lower c) = is_digit c.
Proof. each_ascii c; reflexivity. Qed.

Lemma is_space_lower (c : ascii) : is_space (to_lower c) = is_space c.
Proof. each_ascii c; reflexivity. Qed.

Lemma to_lower_idempotent (c : ascii) : to_lower (to_lower c) = to_lower c.
Proof. each_ascii c; reflexivity. Qed.

Lemma number_char_lower (c : ascii) : number_char c = true -> to_lower c = c.
Proof. each_ascii c; vm_compute; intros H; (discriminate H || reflexivity). Qed.

Lemma accepts_lower (cl : cclass) (c : ascii) :
  accepts true cl (to_lower c) = accepts true cl c.
Proof.
  destruct cl; simpl.
  - apply is_digit_lower.
  - apply is_space_lower.
  - now rewrite to_lower_idempotent.
Qed.

Section MatchUnderMap.

Variable f : ascii -> ascii.
Variable ic : bool.
Hypothesis accepts_f : forall cl c, accepts ic cl (f c) = accepts ic cl c.

Lemma greedy_ext {A : Type} (p : ascii -> bool) (next next' : text -> option A) :
  (forall r, next r = next' r) -> forall s, greedy p next s = greedy p next' s.
Proof.
  intros H. induction s as [|c s IH]; simpl; [apply H|].
  now rewrite IH, H.
Qed.

Lemma match_items_ext {A : Type} (its : list item) :
  forall k k' : text -> option A,
    (forall r, k r = k' r) -> forall s, match_items ic its k s = match_items ic its k' s.
Proof.
  induction its as [|[cl q] its IH]; intros k k' H s; simpl; [apply H|].
  destruct q.
  - destruct s as [|c s]; [reflexivity|]. now rewrite (IH k k' H).
  - destruct s as [|c s]; [now apply IH|]. now rewrite !(IH k k' H).
  - apply greedy_ext. now apply IH.
  - destruct s as [|c s]; [reflexivity|].
    destruct (accepts ic cl c); [|reflexivity]. apply greedy_ext. now apply IH.
Qed.

Lemma greedy_map {A : Type} (cl : cclass) (next : text -> option A) :
  forall s,
    greedy (accepts ic cl) next (map f s)
    = greedy (accepts ic cl) (fun r => next (map f r)) s.
Proof.
  induction s as [|c s IH]; simpl; [reflexivity|].
  now rewrite accepts_f, IH.
Qed.

Lemma match_items_map {A : Type} (its : list item) :
  forall (k : text -> option A) (s : text),
    match_items ic its k (map f s) = match_items ic its (fun r => k (map f r)) s.
Proof.
  induction its as [|[cl q] its IH]; intros k s; simpl; [reflexivity|].
  destruct q.
  - destruct s as [|c s]; simpl; [reflexivity|]. now rewrite accepts_f, IH.
  - destruct s as [|c s]; simpl; [apply (IH k [])|].
    change (f c :: map f s) with (map f (c :: s)).
    now rewrite accepts_f, !IH.
  - rewrite greedy_map. apply greedy_ext. intros r. apply IH.
  - destruct s as [|c s]; simpl; [reflexivity|]. rewrite accepts_f.
    destruct (accepts ic cl c); [|reflexivity].
    rewrite greedy_map. apply greedy_ext. intros r. apply IH.
Qed.

Lemma greedy_post {A B : Type} (g : A -> B) (p : ascii -> bool)
      (next : text -> option A) :
  forall s,
    greedy p (fun r => option_map g (next r)) s = option_map g (greedy p next s).
Proof.
  induction s as [|c s IH]; simpl; [reflexivity|].
  destruct (p c); [|reflexivity].
  rewrite IH. now destruct (greedy p next s).
Qed.

Lemma match_items_post {A B : Type} (g : A -> B) (its : list item) :
  forall (k : text -> option A) (s : text),
    match_items ic its (fun r => option_map g (k r)) s
    = option_map g (match_items ic its k s).
Proof.
  induction its as [|[cl q] its IH]; intros k s; simpl; [reflexivity|].
  destruct q.
  - destruct s as [|c s]; [reflexivity|].
    destruct (accepts ic cl c); [apply IH | reflexivity].
  - destruct s as [|c s]; [apply IH|].
    destruct (accepts ic cl c); [|apply IH].
    rewrite !IH. now destruct (match_items ic its k s).
  - rewrite <- greedy_post. apply greedy_ext. intros r. apply IH.
  - destruct s as [|c s]; [reflexivity|].
    destruct (accepts ic cl c); [|reflexivity].
    rewrite <- greedy_post. apply greedy_ext. intros r. apply IH.
Qed.

Lemma match_at_map (re : regex) (s : text) :
  match_at ic re (map f s)
  = option_map (fun r => (map f (fst r), snd r)) (match_at ic re s).
Proof.
  unfold match_at. rewrite match_items_map, <- match_items_post.
  apply match_items_ext. intros r1.
  rewrite match_items_map, <- match_items_post.
  apply match_items_ext. intros r2. simpl.
  now rewrite !length_map, firstn_map.
Qed.

Lemma findall_from_map (re : regex) :
  forall (s : text) (n : nat),
    findall_from ic re n (map f s) = map (map f) (findall_from ic re n s).
Proof.
  induction s as [|c s IH]; intros n.
  - destruct n; simpl; [|reflexivity].
    change (@nil ascii) with (map f []) at 1. rewrite match_at_map.
    now destruct (match_at ic re []) as [[cap len]|].
  - destruct n; simpl; [|apply IH].
    change (f c :: map f s) with (map f (c :: s)). rewrite match_at_map.
    destruct (match_at ic re (c :: s)) as [[cap len]|]; simpl; [f_equal|]; apply IH.
Qed.

End MatchUnderMap.

Lemma capture_number_chars (p : regex) (s m : text) :
  In p patterns -> In m (findall p s true) ->
  Forall (fun c => number_char c = true) m.
Proof.
  intros Hp Hm. apply findall_from_captures in Hm.
  destruct (group1_of_patterns p Hp) as [Hg| ->].
  - rewrite Hg in Hm. now apply number_text_chars, spans_number_group.
  - apply spans_signed_number in Hm. destruct Hm as [Hm|(m' & -> & Hm)].
    + now apply number_text_chars.
    + constructor; [reflexivity | now apply number_text_chars].
Qed.

Lemma findall_lower (p : regex) (s : text) :
  In p patterns -> findall p (map to_lower s) true = findall p s true.
Proof.
  intros Hp. unfold findall.
  rewrite (findall_from_map to_lower true accepts_lower).
  rewrite <- (map_id (findall_from true p 0 s)) at 2.
  apply map_ext_in. intros m Hm.
  apply (capture_number_chars p s m Hp) in Hm.
  induction Hm as [|c m Hc Hm IH]; simpl; [reflexivity|].
  now rewrite IH, number_char_lower.
Qed.

(** X4. Matching is blind to letter case and, through line 47, to the
    confusable letters: two texts whose normalized forms differ only in the
    case of their letters give the same sequence. *)
Theorem extraction_ignores_case (self other : FullSwingOCR) (t t' : text) :
  map to_lower (normalize t) = map to_lower (normalize t') ->
  fst (extract_numbers_from_text self t) = fst (extract_numbers_from_text other t').
Proof.
  intros H. rewrite !extract_as_converted. f_equal.
  unfold all_matches. rewrite !flat_map_concat_map. f_equal.
  apply map_ext_in. intros p Hp.
  now rewrite <- (findall_lower p (normalize t) Hp), H, findall_lower.
Qed.

Lemma extraction_ignores_case_witness :
  fst (extract_numbers_from_text __init__ (str "lO MPH 25O Ft"))
  = fst (extract_numbers_from_text __init__ (str "10 mph 250 ft")).
Proof.
  apply (extraction_ignores_case __init__ __init__ (str "lO MPH 25O Ft")
           (str "10 mph 250 ft")).
  reflexivity.
Defined.

(** ** A reading followed by its unit *)

Lemma match_number_group {A : Type} (k : text -> option A) (m rest : text) (r : A) :
  number_text m -> stops_number rest -> k rest = Some r ->
  match_items true number_group k (m ++ rest) = Some r.
Proof.
  intros Hm Hstop Hk.
  assert (Hdigits : match rest with [] => True | c :: _ => is_digit c = false end)
    by (destruct rest; [exact I | apply Hstop]).
  destruct Hm as [u Hne Hu|a b Hne Ha Hb].
  - destruct u as [|c u]; [contradiction|]. inversion Hu as [|? ? Hc Hu']; subst.
    cbn [number_group match_items app accepts]. rewrite Hc.
    apply greedy_run; [exact Hu' | exact Hdigits|].
    destruct rest as [|x rest]; [exact Hk|].
    destruct Hstop as [Hx Hdot]. cbn [accepts] in Hdot. rewrite Hdot.
    cbn [greedy]. change (accepts true Digit x) with (is_digit x). now rewrite Hx.
  - destruct a as [|c a]; [contradiction|]. inversion Ha as [|? ? Hc Ha']; subst.
    rewrite <- app_assoc.
    cbn [number_group match_items app accepts]. rewrite Hc.
    apply greedy_run; [exact Ha' | reflexivity|].
    change (Ascii.eqb (to_lower ".") (to_lower ".")) with true. cbv iota.
    now rewrite (greedy_run (accepts true Digit) (fun s => k s) b rest r Hb Hdigits Hk).
Qed.

Lemma match_literals {A : Type} (k : text -> option A) (unit rest : text) :
  match_items true (map (fun c => (Lit c, Once)) unit) k (unit ++ rest) = k rest.
Proof.
  induction unit as [|c unit IH]; simpl; [reflexivity|].
  now rewrite Ascii.eqb_refl.
Qed.

Lemma space_stops_number (c : ascii) :
  is_space c = true -> is_digit c = false /\ accepts true (Lit ".") c = false.
Proof. each_ascii c; vm_compute; intros H; (discriminate H || (split; reflexivity)). Qed.

Lemma space_normalized (c : ascii) : is_space c = true -> normalize_char c = c.
Proof. each_ascii c; vm_compute; intros H; (discriminate H || reflexivity). Qed.

Lemma plain_char_no_marker (c l : ascii) :
  number_char c || is_space c = true -> marker_letter l = true ->
  accepts true (Lit l) c = false.
Proof.
  intros Hc Hl.
  assert (El : In l ["m"; "h"; "f"; "r"; "/"; degree_sign]).
  { revert Hl. each_ascii l; vm_compute; intros H; (discriminate H || tauto). }
  revert Hc. simpl in El.
  destruct El as [<-|[<-|[<-|[<-|[<-|[<-|[]]]]]]];
    each_ascii c; vm_compute; intros H; (discriminate H || reflexivity).
Qed.

Section UnitReading.

Variables m ws : text.
Hypothesis number_m : number_text m.
Hypothesis spaces_ws : forallb is_space ws = true.

Lemma spaces_Forall : Forall (fun c => is_space c = true) ws.
Proof.
  apply Forall_forall. intros c Hc.
  now apply (proj1 (forallb_forall is_space ws) spaces_ws).
Qed.

Lemma reading_stops (unit : text) :
  stops_number unit -> stops_number (ws ++ unit).
Proof.
  intros Hunit. pose proof spaces_Forall as Hws.
  destruct Hws as [|c ws' Hc _]; simpl; [exact Hunit | now apply space_stops_number].
Qed.

Lemma findall_own_unit (unit : text) :
  stops_number unit ->
  match unit with [] => True | c :: _ => is_space c = false end ->
  findall (unit_pattern unit) (m ++ ws ++ unit) true = [m].
Proof.
  intros Hstop Hhead. unfold findall.
  rewrite <- (app_nil_r (m ++ ws ++ unit)).
  rewrite (findall_from_match true (unit_pattern unit) (m ++ ws ++ unit) [] m).
  - reflexivity.
  - destruct (number_text_head m number_m) as (c & u & -> & _). discriminate.
  - rewrite app_nil_r. unfold match_at.
    apply match_number_group; [exact number_m | now apply reading_stops|].
    cbn [suffix unit_pattern match_items].
    apply greedy_run; [exact spaces_Forall | exact Hhead|].
    rewrite <- (app_nil_r unit) at 2. rewrite match_literals.
    cbn [length]. rewrite Nat.sub_0_r. do 2 f_equal.
    apply firstn_sub_app.
Qed.

Lemma findall_other_unit (unit unit' : text) (l : ascii) :
  In l unit' -> marker_letter l = true ->
  forallb (fun c => negb (accepts true (Lit l) c)) unit = true ->
  findall (unit_pattern unit') (m ++ ws ++ unit) true = [].
Proof.
  intros Hl Hmark Hunit. unfold findall.
  apply (findall_without_literal true (unit_pattern unit') l).
  - simpl. right. now apply (in_map (fun c => (Lit c, Once))).
  - apply Forall_app. split; [|apply Forall_app; split].
    + eapply Forall_impl; [|exact (number_text_chars m number_m)].
      intros c Hc. apply plain_char_no_marker; [now rewrite Hc | exact Hmark].
    + eapply Forall_impl; [|exact spaces_Forall].
      intros c Hc. apply plain_char_no_marker; [|exact Hmark].
      rewrite Hc. apply orb_true_r.
    + apply Forall_forall. intros c Hc.
      apply (proj1 (forallb_forall _ unit) Hunit) in Hc.
      now apply negb_true_iff in Hc.
Qed.

Lemma match_items_optional_skip {A : Type} (cl : cclass) (its : list item)
      (k : text -> option A) (c : ascii) (s : text) :
  accepts true cl c = false ->
  match_items true ((cl, Optional) :: its) k (c :: s) = match_items true its k (c :: s).
Proof. intros H. simpl. now rewrite H. Qed.

Lemma findall_any_reading (unit : text) :
  stops_number unit -> existsb is_digit unit = false ->
  findall pat_any (m ++ ws ++ unit) true = [m].
Proof.
  intros Hstop Hnone. unfold findall.
  rewrite (findall_from_match true pat_any m (ws ++ unit) m).
  - f_equal. apply findall_without_digit.
    + unfold patterns. apply in_or_app. right. now left.
    + rewrite existsb_app, Hnone, orb_false_r.
      pose proof spaces_Forall as Hws. clear spaces_ws.
      induction Hws as [|c ws' Hc Hws IH]; simpl; [reflexivity|].
      rewrite IH. now destruct (space_stops_number c Hc) as [-> _].
  - destruct (number_text_head m number_m) as (c & u & -> & _). discriminate.
  - unfold match_at. change (group1 pat_any) with ((Lit "-", Optional) :: number_group).
    destruct (number_text_head m number_m) as (c & u & E & Hc).
    rewrite E at 1. cbn [app].
    rewrite match_items_optional_skip by now apply digit_not_minus.
    change (c :: u ++ ws ++ unit) with ((c :: u) ++ ws ++ unit). rewrite <- E.
    apply match_number_group; [exact number_m | now apply reading_stops|].
    cbn [suffix pat_any match_items].
    rewrite firstn_sub_app. do 2 f_equal. rewrite length_app. lia.
Qed.

Lemma reading_is_normalized (unit : text) :
  In unit unit_markers -> normalize (m ++ ws ++ unit) = m ++ ws ++ unit.
Proof.
  intros Hunit. rewrite normalize_as_map, !map_app. f_equal; [|f_equal].
  - rewrite <- normalize_as_map.
    apply normalize_number_chars, number_text_chars, number_m.
  - pose proof spaces_Forall as Hws. clear spaces_ws.
    induction Hws as [|c ws' Hc Hws IH]; simpl; [reflexivity|].
    now rewrite IH, space_normalized.
  - destruct Hunit as [<-|[<-|[<-|[<-|[<-|[]]]]]]; reflexivity.
Qed.

(** X5. A reading written as a number, any amount of white space (none
    included) and one of the five unit markers is returned twice: once by
    the pattern of its unit and once by the generic pattern, and by no
    other pattern. *)
Theorem unit_reading_is_returned_twice (self : FullSwingOCR) (unit : text) :
  In unit unit_markers ->
  exists v, py_float m = Some v /\
            fst (extract_numbers_from_text self (m ++ ws ++ unit)) = [v; v].
Proof.
  intros Hunit.
  destruct (py_float_number m number_m) as (q & _ & Hf).
  exists (Finite q). split; [exact Hf|].
  rewrite extract_as_converted, (reading_is_normalized unit Hunit).
  unfold all_matches, patterns, unit_patterns,
    pat_mph, pat_ft, pat_deg, pat_rpm, pat_per_s.
  cbn [flat_map app].
  rewrite (findall_any_reading unit);
    [| destruct Hunit as [<-|[<-|[<-|[<-|[<-|[]]]]]]; split; reflexivity
     | destruct Hunit as [<-|[<-|[<-|[<-|[<-|[]]]]]]; reflexivity ].
  destruct Hunit as [<-|[<-|[<-|[<-|[<-|[]]]]]].
  - rewrite (findall_own_unit (str "mph")) by (split; reflexivity).
    rewrite (findall_other_unit (str "mph") (str "ft") "f") by (simpl; auto).
    rewrite (findall_other_unit (str "mph") [degree_sign] degree_sign) by (simpl; auto).
    rewrite (findall_other_unit (str "mph") (str "rpm") "r") by (simpl; auto).
    rewrite (findall_other_unit (str "mph") (str "/s") "/") by (simpl; auto).
    unfold converted. simpl. now rewrite Hf.
  - rewrite (findall_own_unit (str "ft")) by (split; reflexivity).
    rewrite (findall_other_unit (str "ft") (str "mph") "m") by (simpl; auto).
    rewrite (findall_other_unit (str "ft") [degree_sign] degree_sign) by (simpl; auto).
    rewrite (findall_other_unit (str "ft") (str "rpm") "r") by (simpl; auto).
    rewrite (findall_other_unit (str "ft") (str "/s") "/") by (simpl; auto).
    unfold converted. simpl. now rewrite Hf.
  - rewrite (findall_own_unit [degree_sign]) by (split; reflexivity).
    rewrite (findall_other_unit [degree_sign] (str "mph") "m") by (simpl; auto).
    rewrite (findall_other_unit [degree_sign] (str "ft") "f") by (simpl; auto).
    rewrite (findall_other_unit [degree_sign] (str "rpm") "r") by (simpl; auto).
    rewrite (findall_other_unit [degree_sign] (str "/s") "/") by (simpl; auto).
    unfold converted. simpl. now rewrite Hf.
  - rewrite (findall_own_unit (str "rpm")) by (split; reflexivity).
    rewrite (findall_other_unit (str "rpm") (str "mph") "h") by (simpl; auto).
    rewrite (findall_other_unit (str "rpm") (str "ft") "f") by (simpl; auto).
    rewrite (findall_other_unit (str "rpm") [degree_sign] degree_sign) by (simpl; auto).
    rewrite (findall_other_unit (str "rpm") (str "/s") "/") by (simpl; auto).
    unfold converted. simpl. now rewrite Hf.
  - rewrite (findall_own_unit (str "/s")) by (split; reflexivity).
    rewrite (findall_other_unit (str "/s") (str "mph") "m") by (simpl; auto).
    rewrite (findall_other_unit (str "/s") (str "ft") "f") by (simpl; auto).
    rewrite (findall_other_unit (str "/s") [degree_sign] degree_sign) by (simpl; auto).
    rewrite (findall_other_unit (str "/s") (str "rpm") "r") by (simpl; auto).
    unfold converted. simpl. now rewrite Hf.
Qed.

End UnitReading.

Lemma unit_reading_is_returned_twice_witness :
  exists v, py_float (str "85.3") = Some v /\
            fst (extract_numbers_from_text __init__ (str "85.3" ++ str "  " ++ str "mph"))
            = [v; v].
Proof.
  apply (unit_reading_is_returned_twice (str "85.3") (str "  ")).
  - apply (number_point (str "85") (str "3")); [discriminate | |]; repeat constructor.
  - reflexivity.
  - simpl. auto.
Defined.

(** * Further properties of the mapping and the confidence *)

Lemma Qdiv_nat_nonneg (n d : nat) :
  (0 < d)%nat -> (0 <= inject_Z (Z.of_nat n) / inject_Z (Z.of_nat d))%Q.
Proof.
  intros Hd. apply Qle_shift_div_l; [unfold Qlt; simpl; lia|].
  rewrite Qmult_0_l, <- (Zle_Qle 0). lia.
Qed.

(** X6. On the tablet path (line 107) the confidence is the capped
    coverage, for every sequence: it equals the number of populated fields,
    [min(len(numbers), 16)], over 16, and lies in [0, 1]. *)
Theorem tablet_confidence_is_capped_coverage (numbers : list pyfloat) :
  (layout_confidence TABLET numbers == coverage TABLET numbers)%Q /\
  (layout_confidence TABLET numbers
   == inject_Z (Z.of_nat (Nat.min (length numbers) 16)) / 16)%Q /\
  (0 <= layout_confidence TABLET numbers)%Q /\
  (layout_confidence TABLET numbers <= 1)%Q.
Proof.
  split; [apply ipad_confidence_is_coverage|]. split.
  - simpl. rewrite ipad_confidence_is_coverage. unfold coverage.
    rewrite populated_layout. apply Q.min_r.
    change (length (layout_fields TABLET)) with 16.
    apply (Qdiv_nat_le_1 (Nat.min (length numbers) 16) 16); lia.
  - apply ipad_confidence_bounds.
Qed.

(** X7. On the OLED path (line 85) the confidence is never negative, and
    it is at most 1, and equal to the capped coverage, exactly when the
    sequence has at most four numbers. *)
Theorem oled_confidence_capped_iff (numbers : list pyfloat) :
  (0 <= layout_confidence OLED numbers)%Q /\
  ((layout_confidence OLED numbers <= 1)%Q <-> length numbers <= 4) /\
  ((layout_confidence OLED numbers == coverage OLED numbers)%Q <-> length numbers <= 4).
Proof.
  assert (Hle : (layout_confidence OLED numbers <= 1)%Q <-> length numbers <= 4).
  { apply (Qdiv_nat_le_1 (length numbers) 4). lia. }
  split; [apply (Qdiv_nat_nonneg (length numbers) 4); lia|].
  split; [exact Hle|].
  unfold coverage. rewrite populated_layout.
  change (length (layout_fields OLED)) with 4.
  destruct (Nat.le_gt_cases (length numbers) 4) as [Hn|Hn].
  - rewrite Nat.min_l by exact Hn. split; [intros _; exact Hn|]. intros _.
    symmetry. apply Q.min_r. now apply Hle.
  - rewrite Nat.min_r by lia. split; [|lia]. intros Heq. exfalso.
    assert (H1 : (layout_confidence OLED numbers <= 1)%Q).
    { rewrite Heq. apply Q.le_min_l. }
    apply Hle in H1. lia.
Qed.

Lemma positional_firstn (numbers : list pyfloat) (fields : list string) :
  map (positional numbers) (enumerate fields)
  = map (positional (firstn (length fields) numbers)) (enumerate fields).
Proof.
  apply map_ext_in. intros [i f] Hin. unfold positional. simpl.
  unfold enumerate in Hin. apply in_combine_l, in_seq in Hin.
  rewrite nth_error_firstn.
  destruct (Nat.ltb_spec i (length fields)); [reflexivity | lia].
Qed.

(** X8. Only the first numbers count: for both layouts the mapping of a
    sequence is the mapping of its first 4 (OLED) or 16 (tablet) numbers,
    and the number of fields holding a value is the smaller of the length
    of the sequence and the size of the layout. *)
Theorem mapping_ignores_surplus (L : layout) (numbers : list pyfloat) :
  layout_result L numbers
  = layout_result L (firstn (length (layout_fields L)) numbers) /\
  populated (layout_result L numbers)
  = Nat.min (length numbers) (length (layout_fields L)).
Proof.
  split; [|apply populated_layout].
  assert (H : forall fields, NoDup fields ->
                fill_fields fields numbers
                = fill_fields fields (firstn (length fields) numbers)).
  { intros fields Hnd. rewrite !fill_fields_as_map by exact Hnd.
    apply positional_firstn. }
  destruct L; unfold layout_result, layout_fields.
  - rewrite !oled_result_as_fill. apply H, NoDup_oled_fields.
  - apply H, NoDup_ipad_fields.
Qed.

(** * Further properties of the pipeline and of the view *)

Section PipelineFacts.

Context {B : Backend}.


Lemma preprocess_keeps_self (self self' : FullSwingOCR) (path : text)
      (r : outcome ndarray) :
  preprocess_image self path = (r, self') -> self' = self.
Proof.
  unfold preprocess_image. destruct (cvtColor (imread path)) as [gray|e].
  - destruct (shape _) as [height width]. now intros [= _ <-].
  - now intros [= _ <-].
Qed.

Lemma process_display_runs (L : layout) (self self' : FullSwingOCR) (path : text)
      (img : ndarray) :
  preprocess_image self path = (Returns img, self') ->
  process_display L self path
  = match image_to_string img (config self) with
    | Raises e => (Raises e, self)
    | Returns t =>
        (Returns (layout_result L (fst (extract_numbers_from_text self t)), t,
                  layout_confidence L (fst (extract_numbers_from_text self t))), self)
    end.
Proof.
  intros Hpre. pose proof (preprocess_keeps_self _ _ _ _ Hpre) as ->.
  destruct L; unfold process_display, process_oled_display, process_ipad_display;
    rewrite Hpre; now destruct (image_to_string img (config self)).
Qed.

Lemma process_display_returns (L : layout) (self self' : FullSwingOCR) (path : text)
      (r : reading) :
  process_display L self path = (Returns r, self') ->
  exists img t,
    preprocess_image self path = (Returns img, self)
    /\ image_to_string img (config self) = Returns t
    /\ r = (layout_result L (fst (extract_numbers_from_text self t)), t,
            layout_confidence L (fst (extract_numbers_from_text self t)))
    /\ self' = self.
Proof.
  intros H.
  destruct (preprocess_image self path) as [[img|e] s0] eqn:Hpre.
  - pose proof (preprocess_keeps_self _ _ _ _ Hpre) as ->.
    rewrite (process_display_runs L self self path img Hpre) in H.
    destruct (image_to_string img (config self)) as [t|e] eqn:Hocr; [|discriminate].
    injection H as <- <-. now exists img, t.
  - exfalso. destruct L; unfold process_display, process_oled_display,
      process_ipad_display in H; rewrite Hpre in H; discriminate.
Qed.

(** X10. A reading is determined by its raw text, and the raw text is the
    recognizer's: on either path, when a reading (data, raw text,
    confidence) is returned, the raw text is what [image_to_string] gave
    for the preprocessed image under [self.config], as it was recognized
    (not normalized); the data is the positional mapping of the numbers
    extracted from that raw text and the confidence is computed from the
    same numbers; the object is unchanged. *)
Theorem reading_is_determined_by_raw_text
        (L : layout) (self self' : FullSwingOCR) (path : text)
        (data : dict) (raw_text : text) (confidence : Q) :
  process_display L self path = (Returns (data, raw_text, confidence), self') ->
  (exists img,
      preprocess_image self path = (Returns img, self)
      /\ image_to_string img (config self) = Returns raw_text) /\
  data = layout_result L (fst (extract_numbers_from_text self raw_text)) /\
  confidence = layout_confidence L (fst (extract_numbers_from_text self raw_text)) /\
  self' = self.
Proof.
  intros H.
  destruct (process_display_returns _ _ _ _ _ H) as (img & t & Hpre & Hocr & E & ->).
  injection E as -> -> ->.
  split; [now exists img|]. auto.
Qed.

(** X11. A failure of the recognizer on a decoded image is reported, for
    either display type, as status 500 with "Processing failed: " and the
    message of the exception; the message is stored in [processing_errors]
    and the shot keeps its fields, its confidence score and its
    [processed] flag (lines 62-68). *)
Theorem recognizer_failure_is_reported
        (display_type : string) (shot : Shot) (img : ndarray) (e : exception) :
  preprocess_image __init__ (image_path shot) = (Returns img, __init__) ->
  image_to_string img (config __init__) = Raises e ->
  process_image display_type shot
  = (Response_error (str "Processing failed: " ++ exc_message e) 500,
     mkShot (image_path shot) (shot_fields shot) (processed shot)
       (exc_message e) (confidence_score shot)).
Proof.
  intros Hpre Hocr. unfold process_image.
  pose proof (process_display_runs OLED _ _ _ _ Hpre) as Ho.
  pose proof (process_display_runs TABLET _ _ _ _ Hpre) as Hi.
  rewrite Hocr in Ho, Hi. cbn [process_display] in Ho, Hi.
  rewrite Ho, Hi. now destruct (String.eqb display_type "oled").
Qed.

End PipelineFacts.


Lemma reading_is_determined_by_raw_text_witness :
  (exists img,
      @preprocess_image sized_backend __init__ (str "shot.jpg") = (Returns img, __init__)
      /\ @image_to_string sized_backend img (config __init__)
         = Returns (str "85.3 mph 112.mph")) /\
  oled_result [Finite (853 # 10); Finite 112; Finite (853 # 10); Finite 112]
  = layout_result OLED
      (fst (extract_numbers_from_text __init__ (str "85.3 mph 112.mph"))).
Proof.
  destruct (@reading_is_determined_by_raw_text sized_backend OLED __init__ __init__
              (str "shot.jpg")
              (oled_result [Finite (853 # 10); Finite 112; Finite (853 # 10); Finite 112])
              (str "85.3 mph 112.mph") (4 # 4)%Q eq_refl)
    as (Hraw & Hdata & _).
  split; [exact Hraw | exact Hdata].
Defined.

Lemma recognizer_failure_is_reported_witness :
  fst (@process_image failing_ocr_backend "ipad" (new_shot (str "shot.jpg")))
  = Response_error (str "Processing failed: tesseract is not installed") 500.
Proof.
  rewrite (@recognizer_failure_is_reported failing_ocr_backend "ipad"
             (new_shot (str "shot.jpg")) tt
             (mkException "TesseractNotFoundError" (str "tesseract is not installed")));
    reflexivity.
Defined.

(** ** Storing the reading on the shot *)

Lemma dict_get_absent (d : dict) (k : string) :
  ~ In k (keys d) -> dict_get d k = None.
Proof.
  induction d as [|[k' v'] d IH]; simpl; intros Hk; [reflexivity|].
  destruct (String.eqb_spec k' k) as [->|Hne].
  - exfalso. apply Hk. now left.
  - apply IH. intros Hin. apply Hk. now right.
Qed.

Lemma update_shot_get (data : dict) (k : string) :
  NoDup (keys data) ->
  forall fields : dict,
    dict_get (update_shot fields data) k
    = match dict_get data k with
      | Some (Some v) => Some (Some v)
      | _ => dict_get fields k
      end.
Proof.
  induction data as [|[k0 v0] data IH]; intros Hnd fields; [reflexivity|].
  simpl in Hnd. inversion Hnd as [|? ? Hk0 Hnd']; subst.
  change (update_shot fields ((k0, v0) :: data))
    with (update_shot (match v0 with
                       | Some _ => dict_set fields k0 v0
                       | None => fields
                       end) data).
  rewrite (IH Hnd'). simpl.
  destruct (String.eqb_spec k0 k) as [->|Hne].
  - rewrite (dict_get_absent data k Hk0).
    destruct v0 as [x|]; [apply dict_get_set_same | reflexivity].
  - destruct (dict_get data k) as [[v|]|]; trivial;
      (destruct v0 as [x|]; [now apply dict_get_set_other | reflexivity]).
Qed.

Lemma update_shot_hasattr_get (hasattr : string -> bool) (data : dict) (k : string) :
  NoDup (keys data) ->
  forall fields : dict,
    dict_get (update_shot_hasattr hasattr fields data) k
    = match dict_get data k with
      | Some (Some v) => if hasattr k then Some (Some v) else dict_get fields k
      | _ => dict_get fields k
      end.
Proof.
  induction data as [|[k0 v0] data IH]; intros Hnd fields; [reflexivity|].
  simpl in Hnd. inversion Hnd as [|? ? Hk0 Hnd']; subst.
  change (update_shot_hasattr hasattr fields ((k0, v0) :: data))
    with (update_shot_hasattr hasattr
            (match v0 with
             | Some _ => if hasattr k0 then dict_set fields k0 v0 else fields
             | None => fields
             end) data).
  rewrite (IH Hnd'). simpl.
  destruct (String.eqb_spec k0 k) as [->|Hne].
  - rewrite (dict_get_absent data k Hk0).
    destruct v0 as [x|]; [|reflexivity].
    destruct (hasattr k); [apply dict_get_set_same | reflexivity].
  - destruct (dict_get data k) as [[v|]|];
      (destruct v0 as [x|]; [|reflexivity]);
      (destruct (hasattr k0); [rewrite dict_get_set_other by exact Hne|]);
      reflexivity.
Qed.

(** X12. What the loop of lines 46-48 stores, for any data (a dict, so
    with distinct keys) and any [hasattr]: a key of the data that holds a
    value and is an attribute of the shot gets that value; a key holding
    [None], a key that is no attribute of the shot, and a key the data
    does not have, keep what the shot had. *)
Theorem update_shot_stores_values_only
        (hasattr : string -> bool) (fields data : dict) (k : string) :
  NoDup (keys data) ->
  dict_get (update_shot_hasattr hasattr fields data) k
  = match dict_get data k with
    | Some (Some v) => if hasattr k then Some (Some v) else dict_get fields k
    | _ => dict_get fields k
    end.
Proof. intros Hnd. now apply update_shot_hasattr_get. Qed.

Lemma update_shot_stores_values_only_witness :
  dict_get (update_shot_hasattr (fun c => existsb (String.eqb c) Shot_float_columns)
              [] [("ball_speed"%string, Some (Finite 85));
                  ("foo"%string, Some (Finite 1))]) "foo"
  = None.
Proof.
  rewrite (update_shot_stores_values_only
             (fun c => existsb (String.eqb c) Shot_float_columns) []
             [("ball_speed"%string, Some (Finite 85)); ("foo"%string, Some (Finite 1))]
             "foo").
  - reflexivity.
  - apply (NoDup_count_occ' string_dec). intros f Hin.
    repeat (destruct Hin as [<-|Hin]; [reflexivity|]). destruct Hin.
Defined.

Lemma update_shot_hasattr_all (hasattr : string -> bool) (data : dict) :
  (forall k, In k (keys data) -> hasattr k = true) ->
  forall fields, update_shot_hasattr hasattr fields data = update_shot fields data.
Proof.
  induction data as [|[k0 v0] data IH]; intros H fields; [reflexivity|].
  unfold update_shot_hasattr, update_shot. simpl.
  rewrite (H k0) by now left.
  apply IH. intros k Hk. apply H. now right.
Qed.

Lemma layout_fields_are_columns (L : layout) (k : string) :
  In k (layout_fields L) -> In k Shot_float_columns.
Proof.
  destruct L; simpl; intros Hin;
    repeat (destruct Hin as [<-|Hin]; [auto 25|]); destruct Hin.
Qed.

(** X13. Every key either display path returns is a float column of
    [Shot] (models.py, lines 18-38), so the [hasattr] test of line 47 never
    drops a value: with any [hasattr] true of the columns, the guarded
    update stores what the unguarded one stores. *)
Theorem hasattr_guard_keeps_every_value
        (hasattr : string -> bool) (L : layout) (numbers : list pyfloat)
        (fields : dict) :
  (forall c, In c Shot_float_columns -> hasattr c = true) ->
  incl (keys (layout_result L numbers)) Shot_float_columns /\
  update_shot_hasattr hasattr fields (layout_result L numbers)
  = update_shot fields (layout_result L numbers).
Proof.
  intros H.
  assert (Hincl : incl (keys (layout_result L numbers)) Shot_float_columns).
  { rewrite layout_result_keys. intros k. apply layout_fields_are_columns. }
  split; [exact Hincl|].
  apply update_shot_hasattr_all. intros k Hk. apply H, Hincl, Hk.
Qed.

Lemma hasattr_guard_keeps_every_value_witness :
  update_shot_hasattr (fun c => existsb (String.eqb c) Shot_float_columns) []
    (layout_result TABLET [Finite 85; Finite 112])
  = update_shot [] (layout_result TABLET [Finite 85; Finite 112]).
Proof.
  apply (hasattr_guard_keeps_every_value
           (fun c => existsb (String.eqb c) Shot_float_columns) TABLET
           [Finite 85; Finite 112] []).
  intros c Hc. simpl in Hc.
  repeat (destruct Hc as [<-|Hc]; [reflexivity|]). destruct Hc.
Defined.

Lemma update_shot_untouched (data : dict) (k : string) :
  ~ In k (keys data) ->
  forall fields, dict_get (update_shot fields data) k = dict_get fields k.
Proof.
  induction data as [|[k0 v0] data IH]; intros Hk fields; [reflexivity|].
  change (update_shot fields ((k0, v0) :: data))
    with (update_shot (match v0 with
                       | Some _ => dict_set fields k0 v0
                       | None => fields
                       end) data).
  rewrite IH by (intros Hin; apply Hk; now right).
  destruct v0 as [x|]; [|reflexivity].
  apply dict_get_set_other. intros ->. apply Hk. now left.
Qed.

(** X14. The columns [apex_height], [hang_time] and [offline] of [Shot]
    belong to neither layout: whatever the numbers, storing a reading of
    either display path leaves them as they were. *)
Theorem unread_columns_are_never_written
        (L : layout) (numbers : list pyfloat) (fields : dict) (k : string) :
  In k ["apex_height"; "hang_time"; "offline"]%string ->
  In k Shot_float_columns /\
  dict_get (update_shot fields (layout_result L numbers)) k = dict_get fields k.
Proof.
  intros Hk. split.
  - simpl in Hk. destruct Hk as [<-|[<-|[<-|[]]]]; simpl; auto 25.
  - apply update_shot_untouched. rewrite layout_result_keys.
    simpl in Hk. destruct Hk as [<-|[<-|[<-|[]]]]; destruct L; simpl;
      intros Hin; repeat (destruct Hin as [Hin|Hin]; [discriminate Hin|]);
      destruct Hin.
Qed.

Lemma unread_columns_are_never_written_witness :
  dict_get (update_shot [("offline"%string, Some (Finite 3))]
              (layout_result TABLET five_numbers)) "offline"
  = Some (Some (Finite 3)).
Proof.
  rewrite (proj2 (unread_columns_are_never_written TABLET five_numbers
                    [("offline"%string, Some (Finite 3))] "offline"
                    (or_intror (or_intror (or_introl eq_refl))))).
  reflexivity.
Defined.

Section ViewFacts.

Context {B : Backend}.

(** X15. When the image decodes and the recognizer returns a text, the
    view answers with the reading of that text for the layout chosen by
    the display type (['oled'] exactly, else the tablet layout), marks the
    shot processed, stores the confidence, leaves [processing_errors]
    alone, and sets each field of the layout that has a number; a field
    without a number keeps the value the shot had. *)
Theorem processed_shot_holds_the_reading
        (display_type : string) (shot : Shot) (img : ndarray) (t : text) :
  preprocess_image __init__ (image_path shot) = (Returns img, __init__) ->
  image_to_string img (config __init__) = Returns t ->
  let L := display_layout display_type in
  let numbers := fst (extract_numbers_from_text __init__ t) in
  let result := process_image display_type shot in
  fst result = Response_data (layout_result L numbers) (layout_confidence L numbers) t /\
  processed (snd result) = true /\
  confidence_score (snd result) = Some (layout_confidence L numbers) /\
  processing_errors (snd result) = processing_errors shot /\
  forall i field,
    nth_error (layout_fields L) i = Some field ->
    dict_get (shot_fields (snd result)) field
    = match nth_error numbers i with
      | Some x => Some (Some x)
      | None => dict_get (shot_fields shot) field
      end.
Proof.
  intros Hpre Hocr L numbers result.
  assert (Hrun : process_image display_type shot
                 = (Response_data (layout_result L numbers)
                      (layout_confidence L numbers) t,
                    mkShot (image_path shot)
                      (update_shot (shot_fields shot) (layout_result L numbers))
                      true (processing_errors shot)
                      (Some (layout_confidence L numbers)))).
  { unfold process_image.
    pose proof (process_display_runs OLED _ _ _ _ Hpre) as Ho.
    pose proof (process_display_runs TABLET _ _ _ _ Hpre) as Hi.
    rewrite Hocr in Ho, Hi. cbn [process_display] in Ho, Hi.
    rewrite Ho, Hi. unfold L, display_layout.
    now destruct (String.eqb display_type "oled"). }
  unfold result. rewrite Hrun. cbn [fst snd processed confidence_score
                                       processing_errors shot_fields].
  repeat split.
  intros i field Hi.
  rewrite update_shot_get by (rewrite layout_result_keys;
                              destruct L; [apply NoDup_oled_fields | apply NoDup_ipad_fields]).
  rewrite (layout_result_get L numbers i field Hi).
  now destruct (nth_error numbers i).
Qed.

End ViewFacts.

Lemma processed_shot_holds_the_reading_witness :
  processed (snd (@process_image sized_backend "oled" (new_shot (str "shot.jpg")))) = true.
Proof.
  exact (proj1 (proj2
           (@processed_shot_holds_the_reading sized_backend "oled"
              (new_shot (str "shot.jpg")) (500, 4 * 500 / 3) (str "85.3 mph 112.mph")
              eq_refl eq_refl))).
Defined.

(** * Further properties of the extraction: where the values come from *)

Lemma findall_from_infix (ic : bool) (re : regex) :
  forall (s : text) (n : nat) (m : text),
    In m (findall_from ic re n s) -> exists pre post, s = pre ++ m ++ post.
Proof.
  assert (Hhere : forall s cap len,
             match_at ic re s = Some (cap, len) ->
             exists pre post, s = pre ++ cap ++ post).
  { intros s cap len Hm.
    destruct (match_at_sound _ _ _ _ _ Hm) as (w & rest & -> & _).
    now exists [], (w ++ rest). }
  assert (Hlater : forall (c : ascii) (s m : text),
             (exists pre post, s = pre ++ m ++ post) ->
             exists pre post, c :: s = pre ++ m ++ post).
  { intros c s m (pre & post & ->). now exists (c :: pre), post. }
  induction s as [|c s IH]; intros n m Hin.
  - destruct n as [|n]; simpl in Hin; [|contradiction].
    destruct (match_at ic re []) as [[cap len]|] eqn:Hm; [|contradiction].
    destruct Hin as [<-|[]]. now apply (Hhere _ _ len).
  - destruct n as [|n]; simpl in Hin; [|now apply Hlater, (IH n)].
    destruct (match_at ic re (c :: s)) as [[cap len]|] eqn:Hm.
    + destruct Hin as [<-|Hin]; [now apply (Hhere _ _ len)|].
      now apply Hlater, (IH (pred len)).
    + now apply Hlater, (IH 0).
Qed.

Lemma capture_is_signed_number (p : regex) (s m : text) :
  In p patterns -> In m (findall p s true) -> signed_number_text m.
Proof.
  intros Hp Hm. apply findall_from_captures in Hm.
  destruct (group1_of_patterns p Hp) as [Hg| ->].
  - left. rewrite Hg in Hm. now apply spans_number_group.
  - now apply spans_signed_number.
Qed.

(** X16. No value is made up: every value of the sequence is the
    conversion of a contiguous piece of the normalized text, and that
    piece is a run of digits with at most one point after a digit,
    possibly preceded by a minus sign. *)
Theorem values_come_from_the_text (self : FullSwingOCR) (t : text) (v : pyfloat) :
  In v (fst (extract_numbers_from_text self t)) ->
  exists pre m post,
    normalize t = pre ++ m ++ post /\ signed_number_text m /\ py_float m = Some v.
Proof.
  rewrite extract_as_converted. unfold converted, all_matches.
  rewrite in_flat_map. intros (m & Hm & Hv).
  apply in_flat_map in Hm. destruct Hm as (p & Hp & Hm).
  destruct (findall_from_infix true p _ _ _ Hm) as (pre & post & E).
  exists pre, m, post. split; [exact E|]. split.
  - now apply (capture_is_signed_number p (normalize t)).
  - destruct (py_float m) as [v'|]; [destruct Hv as [<-|[]]; reflexivity | destruct Hv].
Qed.

Lemma values_come_from_the_text_witness :
  exists pre m post,
    normalize (str "lO mph") = pre ++ m ++ post /\ signed_number_text m
    /\ py_float m = Some (Finite 10).
Proof.
  apply (values_come_from_the_text __init__ (str "lO mph") (Finite 10)).
  vm_compute. auto.
Defined.

(** ** The whitelist of line 11 *)

Lemma whitelisted_char (c : ascii) :
  whitelisted c = true ->
  normalize_char c = c /\ accepts true (Lit "r") c = false.
Proof. each_ascii c; vm_compute; intros H; (discriminate H || (split; reflexivity)). Qed.

(** X17. The whitelist given to the recognizer has none of O, o, l, I
    and no r: on a text made of whitelisted characters and white space the
    normalization of line 47 changes nothing and the [rpm] pattern of line
    54 finds nothing. *)
Theorem whitelisted_text_has_no_rpm (t : text) :
  forallb whitelisted t = true ->
  config __init__ = str "--oem 3 --psm 6 -c tessedit_char_whitelist=" ++ whitelist /\
  normalize t = t /\
  findall pat_rpm (normalize t) true = [].
Proof.
  intros Ht. split; [reflexivity|].
  assert (Hall : Forall (fun c => whitelisted c = true) t).
  { apply Forall_forall. intros c Hc. now apply (proj1 (forallb_forall _ t) Ht). }
  assert (Hn : normalize t = t).
  { rewrite normalize_as_map. clear Ht.
    induction Hall as [|c t Hc Hall IH]; simpl; [reflexivity|].
    rewrite IH. now destruct (whitelisted_char c Hc) as [-> _]. }
  split; [exact Hn|]. rewrite Hn. unfold findall.
  apply (findall_without_literal true pat_rpm "r"); [simpl; auto|].
  eapply Forall_impl; [|exact Hall]. intros c Hc. now apply whitelisted_char.
Qed.

Lemma whitelisted_text_has_no_rpm_witness :
  findall pat_rpm (normalize (str "2500 rpm")) true = [str "2500"] /\
  findall pat_rpm (normalize (str "2500 pm")) true = [].
Proof.
  split; [vm_compute; reflexivity|].
  apply (whitelisted_text_has_no_rpm (str "2500 pm")). reflexivity.
Defined.

(** * A token with two points inside a text *)

Lemma number_part_false (x : ascii) :
  number_part x = false ->
  is_digit (normalize_char x) = false
  /\ accepts true (Lit ".") (normalize_char x) = false
  /\ Ascii.eqb (normalize_char x) "-" = Ascii.eqb x "-".
Proof.
  each_ascii x; vm_compute; intros H; (discriminate H || (repeat split; reflexivity)).
Qed.

Lemma accepts_minus_eqb (x : ascii) : accepts true (Lit "-") x = Ascii.eqb x "-".
Proof. each_ascii x; reflexivity. Qed.

Lemma accepts_point_eqb (x : ascii) : accepts true (Lit ".") x = Ascii.eqb x ".".
Proof. each_ascii x; reflexivity. Qed.

Lemma number_text_digit_or_point (m : text) :
  number_text m -> Forall (fun c => digit_or_point c = true) m.
Proof.
  assert (H : forall u, all_digits u -> Forall (fun c => digit_or_point c = true) u).
  { intros u Hu. eapply Forall_impl; [|exact Hu].
    intros c Hc. unfold digit_or_point. now rewrite Hc. }
  intros [u _ Hu|a b _ Ha Hb]; [now apply H|].
  apply Forall_app. split; [now apply H|]. constructor; [reflexivity | now apply H].
Qed.

Lemma signed_number_tail (m : text) :
  signed_number_text m -> Forall (fun c => digit_or_point c = true) (tl m).
Proof.
  intros [Hm|(m' & -> & Hm)].
  - apply number_text_digit_or_point in Hm. destruct Hm; simpl; [constructor | assumption].
  - simpl. now apply number_text_digit_or_point.
Qed.

Lemma match_any_within (pre : text) (x : ascii) (rest cap : text) (len : nat) :
  pre <> [] -> digit_or_point x = false ->
  match_at true pat_any (pre ++ x :: rest) = Some (cap, len) ->
  len <= length pre.
Proof.
  intros Hpre Hx Hm.
  destruct (match_at_sound _ _ _ _ _ Hm) as (w & rest' & E & Hcap & Hw & ->).
  simpl in Hw. inversion Hw; subst. simpl in E. rewrite Nat.add_0_r.
  apply spans_signed_number, signed_number_tail in Hcap.
  symmetry in E. apply app_eq_app in E. destruct E as (l & [[E1 E2]|[E1 E2]]).
  - destruct l as [|y l].
    + rewrite app_nil_r in E1. now rewrite E1.
    + exfalso. simpl in E2. injection E2 as <- _.
      destruct pre as [|p0 pre]; [contradiction|].
      rewrite E1 in Hcap. simpl in Hcap.
      apply Forall_app in Hcap. destruct Hcap as [_ Hcap].
      inversion Hcap as [|? ? Hx' _]. congruence.
  - rewrite E1, length_app. lia.
Qed.

Lemma findall_any_sync (x : ascii) (rest : text) :
  digit_or_point x = false ->
  forall (pre : text) (n : nat),
    n <= length pre ->
    exists L,
      findall_from true pat_any n (pre ++ x :: rest)
      = L ++ findall_from true pat_any 0 (x :: rest).
Proof.
  intros Hx. induction pre as [|c pre IH]; intros n Hn.
  - exists []. simpl in Hn. now replace n with 0 by lia.
  - destruct n as [|n].
    + cbn [app findall_from].
      destruct (match_at true pat_any (c :: pre ++ x :: rest)) as [[cap len]|] eqn:Hm.
      * assert (Hlen : len <= length (c :: pre)).
        { apply (match_any_within (c :: pre) x rest cap len); [discriminate | exact Hx|].
          exact Hm. }
        destruct (IH (pred len)) as [L HL]; [simpl in Hlen; lia|].
        exists (cap :: L). simpl. now rewrite HL.
      * apply (IH 0). lia.
    + cbn [app findall_from]. apply IH. simpl in Hn. lia.
Qed.

Lemma match_at_any_fails (x : ascii) (s : text) :
  is_digit x = false -> Ascii.eqb x "-" = false ->
  match_at true pat_any (x :: s) = None.
Proof.
  intros Hd Hminus. unfold match_at.
  change (group1 pat_any) with ((Lit "-", Optional) :: number_group).
  rewrite match_items_optional_skip by now rewrite accepts_minus_eqb.
  cbn [number_group match_items accepts]. now rewrite Hd.
Qed.

Lemma match_number_point {A : Type} (k : text -> option A) (a b rest : text) (r : A) :
  a <> [] -> all_digits a -> all_digits b -> stops_digits rest ->
  k rest = Some r ->
  match_items true number_group k (a ++ "." :: b ++ rest) = Some r.
Proof.
  intros Hne Ha Hb Hstop Hk.
  destruct a as [|c a]; [contradiction|]. inversion Ha as [|? ? Hc Ha']; subst.
  cbn [number_group match_items app accepts]. rewrite Hc.
  apply greedy_run; [exact Ha' | reflexivity|].
  change (Ascii.eqb (to_lower ".") (to_lower ".")) with true. cbv iota.
  now rewrite (greedy_run (accepts true Digit) (fun s => k s) b rest r Hb Hstop Hk).
Qed.

Lemma match_items_optional_take {A : Type} (cl : cclass) (its : list item)
      (k : text -> option A) (c : ascii) (s : text) (r : A) :
  accepts true cl c = true -> match_items true its k s = Some r ->
  match_items true ((cl, Optional) :: its) k (c :: s) = Some r.
Proof. intros Hc Hs. simpl. now rewrite Hc, Hs. Qed.

Lemma match_at_any_minus_point (a b rest : text) :
  a <> [] -> all_digits a -> all_digits b -> stops_digits rest ->
  match_at true pat_any (("-" :: a ++ "." :: b) ++ rest)
  = Some ("-" :: a ++ "." :: b, length ("-" :: a ++ "." :: b)).
Proof.
  intros Hne Ha Hb Hstop. unfold match_at.
  change (group1 pat_any) with ((Lit "-", Optional) :: number_group).
  cbn [app]. apply match_items_optional_take; [reflexivity|].
  rewrite <- app_assoc. cbn [app].
  apply match_number_point; trivial.
  cbn [suffix pat_any match_items].
  change ("-" :: a ++ "." :: b ++ rest) with (("-" :: a) ++ "." :: b ++ rest).
  replace (("-" :: a) ++ "." :: b ++ rest) with (("-" :: a ++ "." :: b) ++ rest)
    by (cbn [app]; now rewrite <- app_assoc).
  rewrite firstn_sub_app. do 2 f_equal. rewrite length_app. lia.
Qed.

Lemma match_at_any_int_rest (a rest : text) :
  a <> [] -> all_digits a -> stops_number rest ->
  match_at true pat_any (a ++ rest) = Some (a, length a).
Proof.
  intros Hne Ha Hstop. unfold match_at.
  change (group1 pat_any) with ((Lit "-", Optional) :: number_group).
  destruct a as [|c a]; [contradiction|]. inversion Ha as [|? ? Hc Ha']; subst.
  cbn [app]. rewrite match_items_optional_skip by now apply digit_not_minus.
  change (c :: a ++ rest) with ((c :: a) ++ rest).
  apply match_number_group; [now apply number_int | exact Hstop|].
  cbn [suffix pat_any match_items].
  rewrite firstn_sub_app. do 2 f_equal. rewrite length_app. lia.
Qed.

Lemma normalize_split (u v : text) : normalize (u ++ v) = normalize u ++ normalize v.
Proof. rewrite !normalize_as_map. apply map_app. Qed.

Section TokenInText.

Variables a b c : text.
Hypothesis a_not_empty : a <> [].
Hypothesis c_not_empty : c <> [].
Hypothesis digits_a : all_digits a.
Hypothesis digits_b : all_digits b.
Hypothesis digits_c : all_digits c.

Lemma findall_any_after_point (Q : text) :
  stops_number Q ->
  findall_from true pat_any 0 ("." :: c ++ Q) = c :: findall_from true pat_any 0 Q.
Proof.
  intros HQ. cbn [findall_from].
  rewrite match_at_any_fails by reflexivity.
  apply findall_from_match; [exact c_not_empty | now apply match_at_any_int_rest].
Qed.

Lemma findall_any_from_token (Q : text) :
  stops_number Q ->
  findall_from true pat_any 0 ((a ++ "." :: b ++ "." :: c) ++ Q)
  = (a ++ "." :: b) :: c :: findall_from true pat_any 0 Q.
Proof.
  intros HQ.
  replace ((a ++ "." :: b ++ "." :: c) ++ Q) with ((a ++ "." :: b) ++ "." :: c ++ Q)
    by (rewrite <- !app_assoc; cbn [app]; now rewrite <- app_assoc).
  rewrite (findall_from_match true pat_any (a ++ "." :: b) ("." :: c ++ Q) (a ++ "." :: b)).
  - f_equal. now apply findall_any_after_point.
  - destruct a; [contradiction | discriminate].
  - rewrite <- app_assoc. cbn [app]. apply match_at_any_point; trivial. reflexivity.
Qed.

Lemma findall_any_from_minus_token (Q : text) :
  stops_number Q ->
  findall_from true pat_any 0 ("-" :: (a ++ "." :: b ++ "." :: c) ++ Q)
  = ("-" :: a ++ "." :: b) :: c :: findall_from true pat_any 0 Q.
Proof.
  intros HQ.
  replace ("-" :: (a ++ "." :: b ++ "." :: c) ++ Q)
    with (("-" :: a ++ "." :: b) ++ "." :: c ++ Q)
    by (cbn [app]; rewrite <- !app_assoc; cbn [app]; now rewrite <- app_assoc).
  rewrite (findall_from_match true pat_any ("-" :: a ++ "." :: b) ("." :: c ++ Q)
             ("-" :: a ++ "." :: b)).
  - f_equal. now apply findall_any_after_point.
  - discriminate.
  - apply match_at_any_minus_point; trivial. reflexivity.
Qed.

Lemma findall_any_token_in_text (P Q : text) :
  match rev P with
  | [] => True
  | x :: _ => digit_or_point x = false
  end ->
  stops_number Q ->
  In (if match rev P with x :: _ => Ascii.eqb x "-" | [] => false end
      then "-" :: a ++ "." :: b else a ++ "." :: b)
     (findall pat_any (P ++ (a ++ "." :: b ++ "." :: c) ++ Q) true)
  /\ In c (findall pat_any (P ++ (a ++ "." :: b ++ "." :: c) ++ Q) true).
Proof.
  intros HP HQ. unfold findall.
  destruct (rev P) as [|x l] eqn:E.
  - assert (P = []) as -> by (rewrite <- (rev_involutive P), E; reflexivity).
    cbn [app]. rewrite findall_any_from_token by exact HQ. simpl. auto.
  - assert (P = rev l ++ [x]) as -> by (rewrite <- (rev_involutive P), E; reflexivity).
    rewrite <- app_assoc. cbn [app].
    destruct (findall_any_sync x ((a ++ "." :: b ++ "." :: c) ++ Q) HP (rev l) 0)
      as [L HL]; [lia|].
    rewrite HL. clear HL.
    destruct (Ascii.eqb_spec x "-") as [->|Hx].
    + rewrite findall_any_from_minus_token by exact HQ.
      split; apply in_or_app; right; simpl; auto.
    + cbn [findall_from]. rewrite match_at_any_fails.
      * rewrite findall_any_from_token by exact HQ.
        split; apply in_or_app; right; simpl; auto.
      * unfold digit_or_point in HP. now apply orb_false_elim in HP.
      * now apply Ascii.eqb_neq.
Qed.

(** C5, as the code has it. A token with two decimal points is not left
    out, wherever it stands: in every text [pre ++ a.b.c ++ post] where
    [a], [b], [c] are digit strings, [a] and [c] not empty, and the token
    is delimited (the characters next to it are no digit, no point and none
    of O, o, l, I), the sequence returned holds the value of [a.b], negated
    when a minus sign precedes the token, and the value of [c]; and for the
    text [a.b.c] alone it is exactly these two values. *)
Theorem two_points_token_is_split (self : FullSwingOCR) (pre post : text) :
  ends_at_boundary pre -> starts_at_boundary post ->
  let r := fst (extract_numbers_from_text self
                  (pre ++ (a ++ "." :: b ++ "." :: c) ++ post)) in
  In (Finite (if preceded_by_minus pre then - decimal a b else decimal a b)%Q) r /\
  In (Finite (decimal c [])) r /\
  (pre = [] -> post = [] -> r = [Finite (decimal a b); Finite (decimal c [])]).
Proof.
  intros Hpre Hpost r. unfold r. clear r.
  split; [|split].
  3: { intros -> ->. cbn [app]. rewrite app_nil_r.
       now apply two_points_text_values. }
  all: rewrite extract_as_converted.
  all: assert (Hn : normalize (pre ++ (a ++ "." :: b ++ "." :: c) ++ post)
                    = normalize pre ++ (a ++ "." :: b ++ "." :: c) ++ normalize post)
        by (rewrite (normalize_split pre), (normalize_split _ post);
            now rewrite (normalize_number_chars _ (two_points_chars a b c
                                                     digits_a digits_b digits_c))).
  all: rewrite Hn; clear Hn.
  all: assert (HP : match rev (normalize pre) with
                    | [] => True
                    | x :: _ => digit_or_point x = false
                    end)
        by (rewrite normalize_as_map, <- map_rev; unfold ends_at_boundary in Hpre;
            destruct (rev pre) as [|x l]; [exact I|]; cbn [map];
            destruct (number_part_false x Hpre) as (Hd & Hp & _);
            unfold digit_or_point; rewrite Hd; rewrite accepts_point_eqb in Hp;
            now rewrite Hp).
  all: assert (HQ : stops_number (normalize post))
        by (rewrite normalize_as_map; unfold starts_at_boundary in Hpost;
            destruct post as [|y post']; [exact I|]; cbn [map stops_number];
            destruct (number_part_false y Hpost) as (Hd & Hp & _); now split).
  all: destruct (findall_any_token_in_text (normalize pre) (normalize post) HP HQ)
        as [Hab Hc].
  all: assert (Hany : forall m,
                  In m (findall pat_any
                          (normalize pre ++ (a ++ "." :: b ++ "." :: c) ++ normalize post)
                          true) ->
                  In m (all_matches
                          (normalize pre ++ (a ++ "." :: b ++ "." :: c) ++ normalize post)))
        by (intros m Hm; unfold all_matches; apply in_flat_map; exists pat_any;
            split; [unfold patterns; apply in_or_app; right; now left | exact Hm]).
  - assert (Hminus : match rev (normalize pre) with
                     | x :: _ => Ascii.eqb x "-"
                     | [] => false
                     end = preceded_by_minus pre).
    { rewrite normalize_as_map, <- map_rev. unfold preceded_by_minus.
      unfold ends_at_boundary in Hpre.
      destruct (rev pre) as [|x l]; [reflexivity|]. cbn [map].
      now destruct (number_part_false x Hpre) as (_ & _ & ->). }
    rewrite Hminus in Hab.
    destruct (preceded_by_minus pre).
    + apply (in_converted _ ("-" :: a ++ "." :: b)); [now apply Hany|].
      destruct (py_float_minus_number _ (number_point a b a_not_empty digits_a digits_b))
        as (q & Hq & Hf).
      rewrite parse_decimal_point in Hq by assumption. now injection Hq as <-.
    + apply (in_converted _ (a ++ "." :: b)); [now apply Hany|].
      now apply py_float_point.
  - apply (in_converted _ c); [now apply Hany|]. now apply py_float_int.
Qed.

End TokenInText.

Lemma two_points_token_is_split_witness :
  In (Finite (decimal (str "1") (str "2")))
     (fst (extract_numbers_from_text __init__ (str "1.2.3 ft"))) /\
  In (Finite (decimal (str "3") []))
     (fst (extract_numbers_from_text __init__ (str "1.2.3 ft"))).
Proof.
  destruct (two_points_token_is_split (str "1") (str "2") (str "3")
              ltac:(discriminate) ltac:(discriminate)
              ltac:(repeat constructor) ltac:(repeat constructor)
              ltac:(repeat constructor)
              __init__ [] (str " ft") I eq_refl)
    as (Hab & Hc & _).
  split; [exact Hab | exact Hc].
Defined.
